(** * OpsPilot: the import reconciliation flow and its client helpers

    A shallow embedding of the parts of the OpsPilot web client that the
    import flow runs through, with the theorems that hold of them:

    - [Pagination]: [getTotalPages] and [paginateItems]
      (apps/web/components/table-pagination.tsx);
    - [Js]: the JavaScript values an HTTP body can carry, with the
      platform operations the client applies to them;
    - [Utils]: [normalizeErrorDetail] (apps/web/lib/utils.ts);
    - [Client]: [apiRequest] and [ApiError] (apps/web/lib/api/client.ts);
    - [ImportFlow]: the [parseImport] and [commitImport] mutations of the
      inventory module (apps/web/app/app/page.tsx);
    - [Reconciler]: the commit reconciler of the API, which is not part of
      the web client, modelled from the specification.

    Numbers: identifiers, indexes, pages and sizes are integers ([Z]);
    quantities, prices and scores are exact decimals ([Qc]).  The IEEE
    rounding of JavaScript doubles is outside the model. *)

From Stdlib Require Import ZArith QArith Qcanon Lia.
From stdpp Require Import base numbers option list list_monad gmap strings pretty.

Local Open Scope Z_scope.
Set Warnings "-register-all".

(** ** Pagination (table-pagination.tsx) *)

Module Pagination.

(** [Math.ceil(a / b)] on integers, for a positive divisor. *)
Definition Math_ceil_div (a b : Z) : Z := - ((- a) / b).

(** [Array.prototype.slice(start, end)]: negative indexes count from the
    end, both indexes are clamped to the length, and an empty range
    yields the empty array. *)
Definition Array_slice {A} (items : list A) (start end_ : Z) : list A :=
  let len := Z.of_nat (length items) in
  let k := if start <? 0 then Z.max (len + start) 0 else Z.min start len in
  let final := if end_ <? 0 then Z.max (len + end_) 0 else Z.min end_ len in
  take (Z.to_nat (final - k)) (drop (Z.to_nat k) items).

Definition getTotalPages (totalItems pageSize : Z) : Z :=
  Z.max 1 (Math_ceil_div totalItems (Z.max 1 pageSize)).

Definition paginateItems {A} (items : list A) (page pageSize : Z) : list A :=
  let safePage := Z.max 1 page in
  let safeSize := Z.max 1 pageSize in
  let start := (safePage - 1) * safeSize in
  Array_slice items start (start + safeSize).

(** The pages [1 .. getTotalPages], in order. *)
Definition allPages {A} (items : list A) (pageSize : Z) : list (list A) :=
  (λ p, paginateItems items p pageSize)
    <$> seqZ 1 (getTotalPages (Z.of_nat (length items)) pageSize).

End Pagination.

(** ** JavaScript values and completions *)

Module Js.

(** Numbers: the integers and [NaN]. *)
Inductive Num := NaN | Int (z : Z).

(** The values a JSON body parses to, and [undefined]. An object keeps
    its own properties in insertion order, each key once. *)
Inductive Value :=
| Undefined
| Null
| Bool (b : bool)
| Number (n : Num)
| Str (s : string)
| Array (elements : list Value)
| Object (properties : list (string * Value)).

(** Exceptions. [ApiError] is the class declared in lib/api/client.ts:
    an [Error] that also carries the HTTP status. *)
Inductive Exn :=
| TypeError (message : string)
| SyntaxError (message : string)
| Error (message : string)
| ApiError (status : Z) (message : string).

(** The outcome of evaluating an expression or running a function. *)
Inductive Completion (A : Type) :=
| Return (a : A)
| Throw (e : Exn).
Arguments Return {A} a.
Arguments Throw {A} e.

#[global] Instance Completion_ret : MRet Completion := λ A a, Return a.
#[global] Instance Completion_bind : MBind Completion := λ A B f m,
  match m with Return a => f a | Throw e => Throw e end.
#[global] Instance Completion_fmap : FMap Completion := λ A B f m,
  match m with Return a => Return (f a) | Throw e => Throw e end.

(** [!!v] *)
Definition ToBoolean (v : Value) : bool :=
  match v with
  | Undefined | Null => false
  | Bool b => b
  | Number NaN => false
  | Number (Int z) => negb (z =? 0)
  | Str s => negb (String.eqb s EmptyString)
  | Array _ | Object _ => true
  end.

(** [typeof v === "object"] *)
Definition typeof_object (v : Value) : bool :=
  match v with Null | Array _ | Object _ => true | _ => false end.

Definition Array_isArray (v : Value) : bool :=
  match v with Array _ => true | _ => false end.

Fixpoint own_property (properties : list (string * Value)) (key : string) : option Value :=
  match properties with
  | [] => None
  | (k, v) :: rest => if String.eqb k key then Some v else own_property rest key
  end.

(** [v.key] for a key that no prototype defines ([msg], [loc], [detail]):
    the own property of an object, [undefined] on every other value that
    has properties, and a [TypeError] on [null] and [undefined]. *)
Definition Get (v : Value) (key : string) : Completion Value :=
  match v with
  | Undefined | Null => Throw (TypeError "Cannot read properties of null or undefined")
  | Object properties => Return (default Undefined (own_property properties key))
  | _ => Return Undefined
  end.

(** [v?.key] *)
Definition Get_optional (v : Value) (key : string) : Value :=
  match v with
  | Object properties => default Undefined (own_property properties key)
  | _ => Undefined
  end.

(** [a ?? b] *)
Definition nullish (a b : Value) : Value :=
  match a with Undefined | Null => b | _ => a end.

(** [v.length] *)
Definition Get_length (v : Value) : Completion Value :=
  match v with
  | Array elements => Return (Number (Int (Z.of_nat (length elements))))
  | Str s => Return (Number (Int (Z.of_nat (String.length s))))
  | _ => Get v "length"
  end.

(** [Number::toString] on the numbers of the model. An integer is
    written digit by digit, which is what JavaScript does for the
    integers of magnitude below 10^21; from there on JavaScript writes
    the exponent form (1e+21), which the model does not have, so the
    digits of a number are only stated below that bound. *)
Definition Number_toString (n : Num) : string :=
  match n with NaN => "NaN" | Int z => pretty z end.

(** [String(v)]. An array joins the conversions of its elements with
    commas, [null] and [undefined] elements giving the empty string. An
    object is converted through its [toString] property: without an own
    one, [Object.prototype.toString] answers; an own one shadows it, and
    since no value here is callable neither it nor [valueOf] yields a
    primitive, so the conversion throws. *)
Fixpoint ToString (v : Value) : Completion string :=
  match v with
  | Undefined => Return "undefined"
  | Null => Return "null"
  | Bool true => Return "true"
  | Bool false => Return "false"
  | Number n => Return (Number_toString n)
  | Str s => Return s
  | Array elements =>
      String.concat "," <$>
        mapM (λ x, match x with
                   | Undefined | Null => Return EmptyString
                   | _ => ToString x
                   end) elements
  | Object properties =>
      match own_property properties "toString" with
      | Some _ => Throw (TypeError "Cannot convert object to primitive value")
      | None => Return "[object Object]"
      end
  end.

Definition quote : string := String (Ascii.ascii_of_nat 34) EmptyString.
Definition backslash : string := String (Ascii.ascii_of_nat 92) EmptyString.

Definition hex_digit (n : nat) : string :=
  String (Ascii.ascii_of_nat (if (n <? 10)%nat then 48 + n else 87 + n)) EmptyString.

(** QuoteJSONString, on the bytes of the string. *)
Definition escape_char (c : Ascii.ascii) : string :=
  let n := Ascii.nat_of_ascii c in
  if (n =? 34)%nat then backslash +:+ quote
  else if (n =? 92)%nat then backslash +:+ backslash
  else if (n =? 8)%nat then backslash +:+ "b"
  else if (n =? 9)%nat then backslash +:+ "t"
  else if (n =? 10)%nat then backslash +:+ "n"
  else if (n =? 12)%nat then backslash +:+ "f"
  else if (n =? 13)%nat then backslash +:+ "r"
  else if (n <? 32)%nat then backslash +:+ "u00" +:+ hex_digit (n / 16) +:+ hex_digit (n mod 16)
  else String c EmptyString.

Fixpoint escape (s : string) : string :=
  match s with
  | EmptyString => EmptyString
  | String c rest => escape_char c +:+ escape rest
  end.

Definition JSON_quote (s : string) : string := quote +:+ escape s +:+ quote.

(** [JSON.stringify(v)] for a value in array position ([undefined] and
    [NaN] print as [null]); properties whose value is [undefined] are
    left out of objects. On arrays and objects, the only values the
    client passes, this is [JSON.stringify] itself. *)
Fixpoint JSON_stringify (v : Value) : string :=
  match v with
  | Undefined | Null | Number NaN => "null"
  | Bool true => "true"
  | Bool false => "false"
  | Number (Int z) => pretty z
  | Str s => JSON_quote s
  | Array elements => "[" +:+ String.concat "," (map JSON_stringify elements) +:+ "]"
  | Object properties =>
      "{" +:+ String.concat ","
                (omap (λ '(k, x), match x with
                                  | Undefined => None
                                  | _ => Some (JSON_quote k +:+ ":" +:+ JSON_stringify x)
                                  end) properties) +:+ "}"
  end.

(** [loc] segments and array elements that [String] converts. *)
Fixpoint stringable (v : Value) : bool :=
  match v with
  | Array elements => forallb stringable elements
  | Object properties =>
      match own_property properties "toString" with Some _ => false | None => true end
  | _ => true
  end.

End Js.

(** ** lib/utils.ts *)

Module Utils.
Import Js.

(** The callback of [detail.map] in [normalizeErrorDetail]. *)
Definition part_text (part : Value) : Completion string :=
  match part with
  | Str s => Return s
  | _ =>
      if ToBoolean part && typeof_object part then
        let msg := match Get_optional part "msg" with
                   | Str m => m
                   | _ => JSON_stringify part
                   end in
        loc ← match Get_optional part "loc" with
              | Array segments =>
                  texts ← mapM ToString segments;
                  Return (String.concat "."
                            (filter (λ segment, segment ≠ "body") texts))
              | _ => Return EmptyString
              end;
        Return (if String.eqb loc EmptyString then msg else loc +:+ ": " +:+ msg)
      else ToString part
  end.

Definition normalizeErrorDetail (detail : Value) : Completion string :=
  if negb (ToBoolean detail) then Return "Request failed"
  else if Array_isArray detail then
    match detail with
    | Array parts => String.concat "; " <$> mapM part_text parts
    | _ => Return EmptyString
    end
  else if typeof_object detail then Return (JSON_stringify detail)
  else ToString detail.

(** The inputs on which no [String(segment)] throws: every segment of
    every [loc] array is [stringable]. *)
Definition part_locs_stringable (part : Value) : bool :=
  match part with
  | Str _ => true
  | _ =>
      if ToBoolean part && typeof_object part then
        match Get_optional part "loc" with
        | Array segments => forallb stringable segments
        | _ => true
        end
      else true
  end.

Definition locs_stringable (detail : Value) : bool :=
  match detail with
  | Array parts => forallb part_locs_stringable parts
  | _ => true
  end.

End Utils.

(** ** lib/api/types.ts *)

Module Api.

Inductive InventoryStatus := in_stock | low_stock | ordered | discontinued.

Inductive ImportDuplicateAction := auto | merge | create_new | review.

#[global] Instance InventoryStatus_eq_dec : EqDecision InventoryStatus.
Proof. solve_decision. Defined.
#[global] Instance ImportDuplicateAction_eq_dec : EqDecision ImportDuplicateAction.
Proof. solve_decision. Defined.

Record InventoryItemOut := {
  id : Z;
  workspace_id : Z;
  name : string;
  normalized_name : string;
  category : string;
  quantity : Qc;
  unit : string;
  low_stock_threshold : Qc;
  status : InventoryStatus
}.

(** [quantity], [unit] and [vendor] are read with a default by the
    page, so they are optional here. *)
Record ReceiptItem := {
  item_name : string;
  item_quantity : option Qc;
  item_unit : option string;
  item_vendor : option string;
  item_category : option string;
  item_price : option Qc
}.

Record ReceiptExtraction := {
  vendor : option string;
  date : option string;
  items : list ReceiptItem
}.

Record DuplicateSuggestionCandidate := {
  item_id : Z;
  candidate_name : string;
  candidate_unit : string;
  candidate_category : string;
  candidate_quantity : Qc;
  similarity_score : Qc;
  reason : string
}.

Record DuplicateSuggestionForImportItem := {
  import_index : Z;
  import_name : string;
  import_unit : string;
  candidates : list DuplicateSuggestionCandidate;
  recommended_action : ImportDuplicateAction;
  recommended_merge_item_id : option Z
}.

Record InventoryDuplicateSuggestionResponse := {
  suggestions : list DuplicateSuggestionForImportItem
}.

End Api.

(** ** lib/api/client.ts *)

Module Client.
Import Js Utils.

Inductive Method := GET | POST | PATCH | DELETE.

(** The body of a response: its text, and the value [JSON.parse] makes
    of that text ([None] when it is not JSON). *)
Record Body := { text : string; json : option Value }.

(** A fetch [Response]. Its body is a stream that is read once: [json()]
    and [text()] read it to the end and mark it used, and both reject
    with a [TypeError] on a body that was read before. A response
    without a body ([None]) reads as the empty text every time. *)
Record Response := { status : Z; body : option Body; bodyUsed : bool }.

Definition ok (response : Response) : bool :=
  (200 <=? status response) && (status response <=? 299).

Definition unusable (response : Response) : bool :=
  match body response with Some _ => bodyUsed response | None => false end.

Definition consume (response : Response) : Response :=
  match body response with
  | Some _ => {| status := status response; body := body response; bodyUsed := true |}
  | None => response
  end.

Definition Response_text (response : Response) : Completion string * Response :=
  if unusable response then (Throw (TypeError "body stream already read"), response)
  else (Return (match body response with Some b => text b | None => EmptyString end),
        consume response).

Definition Response_json (response : Response) : Completion Value * Response :=
  if unusable response then (Throw (TypeError "body stream already read"), response)
  else (match body response with
        | Some b =>
            match json b with
            | Some v => Return v
            | None => Throw (SyntaxError "Unexpected token in JSON")
            end
        | None => Throw (SyntaxError "Unexpected end of JSON input")
        end, consume response).

(** [text || message] *)
Definition or_else (s fallback : string) : string :=
  if String.eqb s EmptyString then fallback else s.

(** What [apiRequest] does with the response once [fetch] has resolved. *)
Definition handleResponse (response : Response) : Completion Value :=
  if negb (ok response) then
    let message := "Request failed" in
    let '(payload, response) := Response_json response in
    match payload ≫= λ payload,
            normalizeErrorDetail (nullish (Get_optional payload "detail") payload) with
    | Return message => Throw (ApiError (status response) message)
    | Throw _ =>
        let '(text, response) := Response_text response in
        match text with
        | Return text => Throw (ApiError (status response) (or_else text message))
        | Throw e => Throw e
        end
    end
  else if status response =? 204 then Return (Object [])
  else
    let '(text, response) := Response_text response in
    match text with
    | Throw e => Throw e
    | Return text =>
        if String.eqb text EmptyString then Return (Object [])
        else match body response ≫= json with
             | Some v => Return v
             | None => Return (Str text)
             end
    end.

(** A request as [fetch] receives it: the path stands for the URL that
    [buildUrl] makes of it, and [B] is the type of the JSON body before
    serialisation. Query parameters and form data, which the commit does
    not use, are left out. *)
Record Request (B : Type) := {
  path : string;
  method : Method;
  headers : list (string * string);
  request_body : option B
}.
Arguments path {B} _.
Arguments method {B} _.
Arguments headers {B} _.
Arguments request_body {B} _.

Record RequestOptions (B : Type) := {
  opt_method : Method;
  opt_token : option string;
  opt_workspaceId : option Z;
  opt_body : option B
}.
Arguments opt_method {B} _.
Arguments opt_token {B} _.
Arguments opt_workspaceId {B} _.
Arguments opt_body {B} _.

Definition buildHeaders {B} (options : RequestOptions B) : list (string * string) :=
  (match opt_token options with
   | Some token => if String.eqb token EmptyString then [] else [("Authorization", "Bearer " +:+ token)]
   | None => []
   end)
  ++ (match opt_workspaceId options with
      | Some workspaceId => if workspaceId =? 0 then [] else [("X-Workspace-Id", pretty workspaceId)]
      | None => []
      end)
  ++ (match opt_body options with
      | Some _ => [("Content-Type", "application/json")]
      | None => []
      end).

Section Network.
(** The world on the other side of [fetch]: the API and its store.
    [fetch] either rejects or resolves with a response. *)
Context {World B : Type}.
Variable fetch : Request B → World → Completion Response * World.

Definition apiRequest (path : string) (options : RequestOptions B) (w : World)
  : Completion Value * World :=
  let init := {| path := path; method := opt_method options;
                 headers := buildHeaders options;
                 request_body := opt_body options |} in
  let '(response, w) := fetch init w in
  (response ≫= handleResponse, w).
End Network.

End Client.

(** ** The import flow of the inventory module (app/app/page.tsx) *)

Module ImportFlow.
Import Js Api Client.

Record EditableImportRow := {
  row_name : string;
  row_quantity : Qc;
  row_unit : string;
  row_vendor : string;
  row_category : string;
  row_price : option Qc;
  duplicate_action : ImportDuplicateAction;
  duplicate_candidates : string;
  merge_item_id : option Z
}.

(** One entry of [payloadItems], the body of the commit request. *)
Record CommitItem := {
  commit_name : string;
  commit_quantity : Qc;
  commit_unit : string;
  commit_vendor : option string;
  commit_category : option string;
  commit_price : option Qc;
  commit_duplicate_action : ImportDuplicateAction;
  commit_merge_item_id : option Z
}.

Record File := { file_name : string }.

Inductive Toast := toast_success (message : string) | toast_error (message : string).

(** The state of [InventoryModule] that the import flow reads and
    writes. [fileInput] is the value of the file input behind
    [importFileInputRef] ([None] while the ref is not attached),
    [inventoryItemsStale] records [invalidateQueries] on the item list,
    and [toasts] collects the notifications, latest first. *)
Record State := {
  importPage : Z;
  importText : string;
  importFile : option File;
  parsedImport : option ReceiptExtraction;
  duplicateSuggestions : list DuplicateSuggestionForImportItem;
  editableRows : list EditableImportRow;
  fileInput : option string;
  inventoryItemsStale : bool;
  toasts : list Toast
}.

Definition initialState : State :=
  {| importPage := 1; importText := EmptyString; importFile := None;
     parsedImport := None; duplicateSuggestions := []; editableRows := [];
     fileInput := Some EmptyString; inventoryItemsStale := false; toasts := [] |}.

(** [new Map()] filled by [suggestions.forEach(entry => map.set(entry.import_index, entry))]. *)
Definition suggestionsByIndex (suggestions : list DuplicateSuggestionForImportItem)
  : gmap Z DuplicateSuggestionForImportItem :=
  foldl (λ m entry, <[import_index entry := entry]> m) ∅ suggestions.

Section Rendering.
(** The text of a number inside a template literal. *)
Variable Number_toString : Qc → string.

Definition candidate_text (candidate : DuplicateSuggestionCandidate) : string :=
  candidate_name candidate +:+ " (" +:+ candidate_unit candidate +:+ ") score "
    +:+ Number_toString (similarity_score candidate).

Definition initialRow (parsed : ReceiptExtraction)
    (byIndex : gmap Z DuplicateSuggestionForImportItem)
    (index : nat) (item : ReceiptItem) : EditableImportRow :=
  let suggestion := byIndex !! Z.of_nat index in
  let candidates := default [] (candidates <$> suggestion) in
  {| row_name := item_name item;
     row_quantity := default 1%Qc (item_quantity item);
     row_unit := default "units" (item_unit item);
     row_vendor := default (default EmptyString (vendor parsed)) (item_vendor item);
     row_category := default EmptyString (item_category item);
     row_price := item_price item;
     duplicate_action := default auto (recommended_action <$> suggestion);
     duplicate_candidates :=
       match candidates with
       | [] => "No close matches"
       | _ => String.concat "; " (candidate_text <$> candidates)
       end;
     merge_item_id := suggestion ≫= recommended_merge_item_id |}.

(** [parseImport.onSuccess] *)
Definition parseImport_onSuccess (parsed : ReceiptExtraction)
    (duplicates : InventoryDuplicateSuggestionResponse) (st : State) : State :=
  let byIndex := suggestionsByIndex (suggestions duplicates) in
  let rows := imap (initialRow parsed byIndex) (items parsed) in
  {| importPage := 1;
     importText := importText st;
     importFile := importFile st;
     parsedImport := Some parsed;
     duplicateSuggestions := suggestions duplicates;
     editableRows := rows;
     fileInput := fileInput st;
     inventoryItemsStale := inventoryItemsStale st;
     toasts := toast_success "Import parsed" :: toasts st |}.
End Rendering.

(** [handleEditableRowChange(index, patch)]; the spread
    [{ ...row, ...patch }] is the function [patch] on rows. *)
Definition handleEditableRowChange (index : nat)
    (patch : EditableImportRow → EditableImportRow) (st : State) : State :=
  {| importPage := importPage st;
     importText := importText st;
     importFile := importFile st;
     parsedImport := parsedImport st;
     duplicateSuggestions := duplicateSuggestions st;
     editableRows :=
       imap (λ rowIndex row, if decide (rowIndex = index) then patch row else row)
         (editableRows st);
     fileInput := fileInput st;
     inventoryItemsStale := inventoryItemsStale st;
     toasts := toasts st |}.

(** The patch [{ duplicate_action: action }] of the action select. *)
Definition with_duplicate_action (action : ImportDuplicateAction)
    (row : EditableImportRow) : EditableImportRow :=
  {| row_name := row_name row; row_quantity := row_quantity row;
     row_unit := row_unit row; row_vendor := row_vendor row;
     row_category := row_category row; row_price := row_price row;
     duplicate_action := action;
     duplicate_candidates := duplicate_candidates row;
     merge_item_id := merge_item_id row |}.

(** [!mergeItemId] *)
Definition no_target (mergeItemId : option Z) : bool :=
  match mergeItemId with None => true | Some z => z =? 0 end.

(** [s || null] *)
Definition or_null (s : string) : option string :=
  if String.eqb s EmptyString then None else Some s.

Definition is_review (row : EditableImportRow) : bool :=
  bool_decide (duplicate_action row = review).

(** The callback of [editableRows.map] in [commitImport]. *)
Definition payloadItem (suggestions : list DuplicateSuggestionForImportItem)
    (index : nat) (row : EditableImportRow) : CommitItem :=
  let mergeItemId := merge_item_id row in
  let mergeItemId :=
    if bool_decide (duplicate_action row = merge) && no_target mergeItemId then
      let fallback := suggestions !! index ≫= recommended_merge_item_id in
      fallback
    else mergeItemId in
  {| commit_name := row_name row;
     commit_quantity := row_quantity row;
     commit_unit := row_unit row;
     commit_vendor := or_null (row_vendor row);
     commit_category := or_null (row_category row);
     commit_price := row_price row;
     commit_duplicate_action := duplicate_action row;
     commit_merge_item_id := mergeItemId |}.

Definition payloadItems (st : State) : list CommitItem :=
  imap (payloadItem (duplicateSuggestions st)) (editableRows st).

(** The session of the signed-in user, from [ModuleProps]. *)
Record Session := { token : string; workspaceId : Z }.

Section Mutation.
Context {World : Type}.
Variable fetch : Request (list CommitItem) → World → Completion Response * World.
Variable session : Session.

(** [commitImport.mutationFn] *)
Definition commitImport_mutationFn (st : State) (w : World) : Completion Value * World :=
  let unresolved := existsb is_review (editableRows st) in
  if unresolved then (Throw (Error "Resolve duplicate decisions before commit."), w)
  else
    apiRequest fetch "/inventory/import/commit"
      {| opt_method := POST;
         opt_token := Some (token session);
         opt_workspaceId := Some (workspaceId session);
         opt_body := Some (payloadItems st) |} w.

(** [commitImport.onSuccess] *)
Definition commitImport_onSuccess (items : Value) (st : State) : Completion State :=
  length ← Get_length items;
  count ← ToString length;
  Return
    {| importPage := 1;
       importText := EmptyString;
       importFile := None;
       parsedImport := None;
       duplicateSuggestions := [];
       editableRows := [];
       fileInput := (λ _, EmptyString) <$> fileInput st;
       inventoryItemsStale := true;
       toasts := toast_success ("Imported " +:+ count +:+ " item(s)") :: toasts st |}.

Definition Exn_message (e : Exn) : string :=
  match e with
  | TypeError m | SyntaxError m | Error m | ApiError _ m => m
  end.

(** [commitImport.onError]; every exception here is an [Error]. *)
Definition commitImport_onError (error : Exn) (st : State) : State :=
  {| importPage := importPage st;
     importText := importText st;
     importFile := importFile st;
     parsedImport := parsedImport st;
     duplicateSuggestions := duplicateSuggestions st;
     editableRows := editableRows st;
     fileInput := fileInput st;
     inventoryItemsStale := inventoryItemsStale st;
     toasts := toast_error (Exn_message error) :: toasts st |}.

(** [commitImport.mutate()]: the mutation function, then [onSuccess]
    with its result or [onError] with what was thrown (also by
    [onSuccess]). *)
Definition commitImport_mutate (st : State) (w : World) : State * World :=
  let '(result, w) := commitImport_mutationFn st w in
  match result with
  | Throw error => (commitImport_onError error st, w)
  | Return items =>
      match commitImport_onSuccess items st with
      | Return st' => (st', w)
      | Throw error => (commitImport_onError error st, w)
      end
  end.
End Mutation.

End ImportFlow.

(** ** The import reconciliation engine of the API

    The API (apps/api) is not part of the web client; its engine is
    modelled from the specification, over the wire types of
    lib/api/types.ts: an inventory record is an [InventoryItemOut], a
    ranked match is a [DuplicateSuggestionCandidate] (its [item_id] is
    the matched record), a suggestion is a
    [DuplicateSuggestionForImportItem]. *)

Module Reconciler.
Import Api.
Local Open Scope Qc_scope.

(** Modelled from the spec: the CandidateItem of the data model (the
    API source is missing); [normalized_name] is derived by the
    normalizer and not stored. *)
Record CandidateItem := {
  c_name : string;
  c_quantity : Qc;
  c_unit : string;
  c_category : option string;
  c_vendor : option string;
  c_price : option Qc
}.

(** Modelled from the spec: the CommitDecision of the data model, a
    candidate with the action chosen for it and an optional explicit
    merge target. *)
Record CommitDecision := {
  candidate : CandidateItem;
  action : ImportDuplicateAction;
  merge_target : option Z
}.

(** Modelled from the spec: the error taxonomy of the commit, each error
    naming the offending row by its import index. *)
Inductive CommitError :=
| UnresolvedDuplicateError (import_index : nat)
| InvalidMergeTargetError (import_index : nat)
| ValidationError (import_index : nat).

(** Modelled from the spec: what the specification leaves to the
    implementer of the engine: the normalizer, the similarity scorer
    (ranked matches, best first), unit compatibility, the two
    thresholds, the ambiguity delta and the default low-stock
    threshold of new records. *)
Record Policy := {
  normalize : string → string;
  score : CandidateItem → list InventoryItemOut → list DuplicateSuggestionCandidate;
  unit_compatible : CandidateItem → DuplicateSuggestionCandidate → bool;
  low_threshold : Qc;
  high_threshold : Qc;
  ambiguity_delta : Qc;
  default_low_stock_threshold : Qc
}.

(** The records of one workspace, by id. *)
Abbreviation Store := (gmap Z InventoryItemOut).

Definition records (st : Store) : list InventoryItemOut := (map_to_list st).*2.

(** Modelled from the spec: the decision table of the recommendation
    engine (the API source is missing). No match at or above the low
    threshold gives [create_new]; a best match in the ambiguous band,
    or a runner-up within the ambiguity delta of the best, gives
    [review]; a best match at or above the high threshold gives [auto]
    with that record as target when the units are compatible and
    [review] when they are not. *)
Definition recommend (policy : Policy) (item : CandidateItem)
    (rankedMatches : list DuplicateSuggestionCandidate)
  : ImportDuplicateAction * option Z :=
  match rankedMatches with
  | [] => (create_new, None)
  | best :: others =>
      if decide (similarity_score best < low_threshold policy) then (create_new, None)
      else if decide (similarity_score best < high_threshold policy) then (review, None)
      else if existsb (λ other, bool_decide
                 (similarity_score best - similarity_score other ≤ ambiguity_delta policy))
                others then (review, None)
      else if unit_compatible policy item best then (auto, Some (item_id best))
      else (review, None)
  end.

(** Modelled from the spec: [suggestDuplicates], one suggestion per
    input item, indexed by [import_index]. *)
Definition suggestDuplicates (policy : Policy) (st : Store) (items : list CandidateItem)
  : InventoryDuplicateSuggestionResponse :=
  {| suggestions :=
       imap (λ index item,
               let rankedMatches := score policy item (records st) in
               let recommendation := recommend policy item rankedMatches in
               {| import_index := Z.of_nat index;
                  import_name := c_name item;
                  import_unit := c_unit item;
                  candidates := rankedMatches;
                  recommended_action := recommendation.1;
                  recommended_merge_item_id := recommendation.2 |}) items |}.

(** Modelled from the spec: the merge target of a decision. An explicit
    target takes precedence; without one the engine falls back to its
    recommendation for the row, recomputed on the current store. *)
Definition resolve_target (policy : Policy) (st : Store) (d : CommitDecision) : option Z :=
  match merge_target d with
  | Some target => Some target
  | None => (recommend policy (candidate d) (score policy (candidate d) (records st))).2
  end.

(** A validated decision: what step 2 of the commit applies. *)
Inductive Step :=
| CreateNew (item : CandidateItem)
| MergeInto (target : Z) (item : CandidateItem).

(** Modelled from the spec: step 1 of the commit for one row. *)
Definition validate_decision (policy : Policy) (st : Store) (index : nat) (d : CommitDecision)
  : CommitError + Step :=
  if decide (c_quantity (candidate d) < 0) then inl (ValidationError index)
  else match action d with
       | review => inl (UnresolvedDuplicateError index)
       | create_new => inr (CreateNew (candidate d))
       | merge | auto =>
           match resolve_target policy st d with
           | Some target =>
               match st !! target with
               | Some _ => inr (MergeInto target (candidate d))
               | None => inl (InvalidMergeTargetError index)
               end
           | None => inl (InvalidMergeTargetError index)
           end
       end.

Fixpoint validate_from (policy : Policy) (st : Store) (index : nat) (ds : list CommitDecision)
  : CommitError + list Step :=
  match ds with
  | [] => inr []
  | d :: rest =>
      match validate_decision policy st index d with
      | inl e => inl e
      | inr step =>
          match validate_from policy st (S index) rest with
          | inl e => inl e
          | inr steps => inr (step :: steps)
          end
      end
  end.

(** Modelled from the spec: step 1 of the commit. The whole batch is
    validated before the store is touched; a row left on [review]
    rejects the batch before anything else is looked at. *)
Definition validate (policy : Policy) (st : Store) (ds : list CommitDecision)
  : CommitError + list Step :=
  match list_find (λ d, action d = review) ds with
  | Some (index, _) => inl (UnresolvedDuplicateError index)
  | None => validate_from policy st 0 ds
  end.

(** Modelled from the spec: the status of a quantity against the
    low-stock threshold, with the inclusive boundary. *)
Definition stock_status (quantity threshold : Qc) : InventoryStatus :=
  if decide (quantity ≤ threshold) then low_stock else in_stock.

(** Modelled from the spec: the status after a merge. A record that was
    [discontinued] or [ordered] keeps its status. *)
Definition merged_status (r : InventoryItemOut) (quantity : Qc) : InventoryStatus :=
  match status r with
  | discontinued => discontinued
  | ordered => ordered
  | in_stock | low_stock => stock_status quantity (low_stock_threshold r)
  end.

Definition merge_into (r : InventoryItemOut) (item : CandidateItem) : InventoryItemOut :=
  let quantity := Api.quantity r + c_quantity item in
  {| id := id r; workspace_id := workspace_id r; name := name r;
     normalized_name := normalized_name r; category := category r;
     quantity := quantity; unit := unit r;
     low_stock_threshold := low_stock_threshold r;
     status := merged_status r quantity |}.

Definition new_record (policy : Policy) (workspace new_id : Z) (item : CandidateItem)
  : InventoryItemOut :=
  {| id := new_id; workspace_id := workspace; name := c_name item;
     normalized_name := normalize policy (c_name item);
     category := default EmptyString (c_category item);
     quantity := c_quantity item; unit := c_unit item;
     low_stock_threshold := default_low_stock_threshold policy;
     status := stock_status (c_quantity item) (default_low_stock_threshold policy) |}.

(** Modelled from the spec: step 2 of the commit for one row. A merge
    looks its target up again in the store as it is now; [None] when
    the target is gone. *)
Definition apply_step (policy : Policy) (workspace : Z) (st : Store) (step : Step)
  : option (Store * InventoryItemOut) :=
  match step with
  | CreateNew item =>
      let r := new_record policy workspace (fresh (dom st)) item in
      Some (<[id r := r]> st, r)
  | MergeInto target item =>
      r ← st !! target;
      let r' := merge_into r item in
      Some (<[target := r']> st, r')
  end.

Fixpoint apply_from (policy : Policy) (workspace : Z) (st : Store) (index : nat)
    (steps : list Step) : CommitError + Store * list InventoryItemOut :=
  match steps with
  | [] => inr (st, [])
  | step :: rest =>
      match apply_step policy workspace st step with
      | None => inl (InvalidMergeTargetError index)
      | Some (st', r) =>
          match apply_from policy workspace st' (S index) rest with
          | inl e => inl e
          | inr (st'', rs) => inr (st'', r :: rs)
          end
      end
  end.

(** Modelled from the spec: [commit(workspace, decisions)]. It returns
    the store after the call with either the error that rejected the
    batch or the created and updated records; a failure in step 2 rolls
    the batch back to the store before the call. *)
Definition commit (policy : Policy) (workspace : Z) (st : Store) (ds : list CommitDecision)
  : Store * (CommitError + list InventoryItemOut) :=
  match validate policy st ds with
  | inl e => (st, inl e)
  | inr steps =>
      match apply_from policy workspace st 0 steps with
      | inl e => (st, inl e)
      | inr (st', rs) => (st', inr rs)
      end
  end.

(** The invariant of the store that merges keep: no quantity is negative. *)
Definition quantities_nonnegative (st : Store) : Prop :=
  map_Forall (λ _ r, 0 ≤ quantity r) st.

Definition step_item (step : Step) : CandidateItem :=
  match step with CreateNew item | MergeInto _ item => item end.

(** The targets of the merges among the steps are records of the store. *)
Definition targets_exist (st : Store) (steps : list Step) : Prop :=
  Forall (λ step, match step with
                  | MergeInto target _ => is_Some (st !! target)
                  | CreateNew _ => True
                  end) steps.

(** A merge or auto decision whose target does not resolve to a record
    of the store. *)
Definition invalid_merge_target (policy : Policy) (st : Store) (d : CommitDecision) : Prop :=
  (action d = merge ∨ action d = auto) ∧
  match resolve_target policy st d with
  | Some target => st !! target = None
  | None => True
  end.

(** A decision that step 1 rejects. *)
Definition fails_validation (policy : Policy) (st : Store) (d : CommitDecision) : Prop :=
  c_quantity (candidate d) < 0 ∨ action d = review ∨ invalid_merge_target policy st d.

(** A well-formed merge or auto decision whose target resolves to the
    record [r] of the store. *)
Definition merges_into (policy : Policy) (st : Store) (d : CommitDecision)
    (target : Z) (r : InventoryItemOut) : Prop :=
  (action d = merge ∨ action d = auto) ∧
  0 ≤ c_quantity (candidate d) ∧
  resolve_target policy st d = Some target ∧
  st !! target = Some r.

End Reconciler.

(** ** Concrete data for the examples *)

Module Examples.
Import Api Reconciler.

Definition lower_char (c : Ascii.ascii) : Ascii.ascii :=
  let n := Ascii.nat_of_ascii c in
  if ((65 <=? n) && (n <=? 90))%nat then Ascii.ascii_of_nat (n + 32) else c.

Fixpoint lower (s : string) : string :=
  match s with
  | EmptyString => EmptyString
  | String c rest => String (lower_char c) (lower rest)
  end.

(** A scorer that only knows exact matches of the case-folded name. *)
Definition exact_name_score (item : CandidateItem) (existing : list InventoryItemOut)
  : list DuplicateSuggestionCandidate :=
  (λ r, {| item_id := id r; candidate_name := name r; candidate_unit := unit r;
           candidate_category := category r; candidate_quantity := quantity r;
           similarity_score := 1%Qc; reason := "exact name match" |})
    <$> filter (λ r, normalized_name r = lower (c_name item)) existing.

Definition exact_name_policy : Policy :=
  {| normalize := lower;
     score := exact_name_score;
     unit_compatible := λ item m, String.eqb (c_unit item) (candidate_unit m);
     low_threshold := Q2Qc (60 # 100);
     high_threshold := Q2Qc (92 # 100);
     ambiguity_delta := Q2Qc (5 # 100);
     default_low_stock_threshold := 1%Qc |}.

Definition paper_towels : InventoryItemOut :=
  {| id := 7; workspace_id := 1; name := "Paper Towels";
     normalized_name := "paper towels"; category := "cleaning";
     quantity := Qc_of_Z 3; unit := "case";
     low_stock_threshold := Qc_of_Z 5; status := low_stock |}.

Definition old_printer : InventoryItemOut :=
  {| id := 9; workspace_id := 1; name := "Laser Printer";
     normalized_name := "laser printer"; category := "office";
     quantity := Qc_of_Z 1; unit := "units";
     low_stock_threshold := Qc_of_Z 2; status := discontinued |}.

Definition store0 : gmap Z InventoryItemOut := <[9 := old_printer]> (<[7 := paper_towels]> ∅).

Definition towels : CandidateItem :=
  {| c_name := "paper towels"; c_quantity := Qc_of_Z 2; c_unit := "case";
     c_category := None; c_vendor := None; c_price := None |}.

Definition printer : CandidateItem :=
  {| c_name := "laser printer"; c_quantity := Qc_of_Z 4; c_unit := "units";
     c_category := None; c_vendor := None; c_price := None |}.

Definition stapler : CandidateItem :=
  {| c_name := "Stapler"; c_quantity := Qc_of_Z 6; c_unit := "units";
     c_category := Some "office"; c_vendor := None; c_price := None |}.

Definition merge_towels : CommitDecision :=
  {| candidate := towels; action := auto; merge_target := Some 7 |}.

Definition merge_printer : CommitDecision :=
  {| candidate := printer; action := merge; merge_target := Some 9 |}.

Definition create_stapler : CommitDecision :=
  {| candidate := stapler; action := create_new; merge_target := None |}.

(** A merge into a record that does not exist. *)
Definition merge_missing : CommitDecision :=
  {| candidate := towels; action := merge; merge_target := Some 42 |}.

End Examples.

(** ** The commit request as the API reads it *)

Module Wire.
Import ImportFlow Reconciler.

(** Modelled from the spec: the CommitDecision that the API reads from
    an item of the commit request, field by field (the API source is
    missing). *)
Definition decision (item : CommitItem) : CommitDecision :=
  {| candidate := {| c_name := commit_name item;
                     c_quantity := commit_quantity item;
                     c_unit := commit_unit item;
                     c_category := commit_category item;
                     c_vendor := commit_vendor item;
                     c_price := commit_price item |};
     action := commit_duplicate_action item;
     merge_target := commit_merge_item_id item |}.

End Wire.

Module ClientExamples.
Import Js Api Client ImportFlow.

(** A gateway error: the body is an HTML page, not JSON. *)
Definition bad_gateway : Response :=
  {| Client.status := 502;
     body := Some {| text := "<html><body>502 Bad Gateway</body></html>"; json := None |};
     bodyUsed := false |}.

(** A validation error of the API, with its [detail] list. *)
Definition unprocessable : Response :=
  {| Client.status := 422;
     body := Some {| text := "{...}";
                     json := Some (Object [("detail",
                               Array [Object [("loc", Array [Str "body"; Str "items";
                                                             Number (Int 0); Str "quantity"]);
                                              ("msg", Str "Input should be a valid number")]])]) |};
     bodyUsed := false |}.

(** A successful commit answering with the two imported items. *)
Definition imported_two : Response :=
  {| Client.status := 200;
     body := Some {| text := "[...]";
                     json := Some (Array [Object [("id", Number (Int 7))];
                                          Object [("id", Number (Int 10))]]) |};
     bodyUsed := false |}.

(** A network that records every request it receives, latest first,
    and answers each with the same response. *)
Definition answering {B} (response : Response)
  : Request B → list (Request B) → Completion Response * list (Request B) :=
  λ request log, (Return response, request :: log).

Definition session : Session := {| token := "t0k3n"; workspaceId := 1 |}.

(** A stand-in for the rendering of numbers: numerator/denominator. *)
Definition ratio_text (q : Qc) : string :=
  pretty (Qnum q) +:+ "/" +:+ pretty (Zpos (Qden q)).

Definition gloves : ReceiptItem :=
  {| item_name := "Nitrile gloves"; item_quantity := Some (Qc_of_Z 4);
     item_unit := Some "box"; item_vendor := None; item_category := None;
     item_price := None |}.

Definition paper_towels_item : ReceiptItem :=
  {| item_name := "paper towels"; item_quantity := Some (Qc_of_Z 2);
     item_unit := Some "case"; item_vendor := None; item_category := None;
     item_price := None |}.

Definition receipt : ReceiptExtraction :=
  {| vendor := Some "Acme Supply"; date := None; items := [gloves; paper_towels_item] |}.

(** The API answers with a suggestion for the second item only. *)
Definition towels_suggestion : DuplicateSuggestionForImportItem :=
  {| import_index := 1; import_name := "paper towels"; import_unit := "case";
     candidates := []; recommended_action := merge;
     recommended_merge_item_id := Some 7 |}.

Definition parsed_state : State :=
  parseImport_onSuccess ratio_text receipt {| suggestions := [towels_suggestion] |}
    initialState.

(** The user then sets the first row to [merge]. *)
Definition first_row_on_merge : State := handleEditableRowChange 0 (with_duplicate_action merge) parsed_state.

(** Or leaves one row on [review]. *)
Definition first_row_on_review : State := handleEditableRowChange 0 (with_duplicate_action review) parsed_state.

Definition review_row : EditableImportRow :=
  {| row_name := "Nitrile gloves"; row_quantity := Qc_of_Z 4; row_unit := "box";
     row_vendor := "Acme Supply"; row_category := EmptyString; row_price := None;
     duplicate_action := review; duplicate_candidates := "No close matches";
     merge_item_id := None |}.

End ClientExamples.

(** ** The pagination bar and the page state (table-pagination.tsx, page.tsx) *)

Module TableView.
Import Pagination.

Record TablePaginationProps := {
  totalItems : Z;
  currentPage : Z;
  pageSize : Z
}.

(** What [TablePagination] computes before it renders: the numbers of the
    label "Showing start-end of totalItems", the page shown between the
    buttons, and whether each button is disabled. [Prev] asks for
    [safePage - 1] and [Next] for [safePage + 1]. *)
Record TablePaginationView := {
  totalPages : Z;
  safePage : Z;
  start : Z;
  end_ : Z;
  prevDisabled : bool;
  nextDisabled : bool
}.

Definition TablePagination (props : TablePaginationProps) : TablePaginationView :=
  let totalPages := getTotalPages (totalItems props) (pageSize props) in
  let safePage := Z.min (Z.max 1 (currentPage props)) totalPages in
  let start := if totalItems props =? 0 then 0 else (safePage - 1) * pageSize props + 1 in
  let end_ := if totalItems props =? 0 then 0
              else Z.min (safePage * pageSize props) (totalItems props) in
  {| totalPages := totalPages; safePage := safePage; start := start; end_ := end_;
     prevDisabled := safePage <=? 1;
     nextDisabled := totalPages <=? safePage |}.

(** The effect of the page that follows a change of the number of pages:
    [if (page > totalPages) setPage(totalPages)]. *)
Definition clampPage (page totalPages : Z) : Z :=
  if totalPages <? page then totalPages else page.

(** [importPageStartIndex], and the index [importPageStartIndex + rowOffset]
    that the review table passes to [handleEditableRowChange]. *)
Definition pageStartIndex (page pageSize : Z) : Z := (page - 1) * pageSize.

Definition rowIndex (page pageSize : Z) (rowOffset : nat) : Z :=
  pageStartIndex page pageSize + Z.of_nat rowOffset.

End TableView.

(** ** Statements about the import state *)

Module ImportInvariant.
Import Api ImportFlow.

(** The merge target of every row is the one recommended for its index,
    as [parseImport] sets it. *)
Definition targets_follow_suggestions (st : State) : Prop :=
  ∀ (i : nat) row,
    editableRows st !! i = Some row →
    merge_item_id row
    = suggestionsByIndex (duplicateSuggestions st) !! Z.of_nat i ≫= recommended_merge_item_id.

(** A patch of the review table: it sets the name, the quantity, the
    unit, the vendor, the category or the action, never the target. *)
Definition keeps_target (patch : EditableImportRow → EditableImportRow) : Prop :=
  ∀ row, merge_item_id (patch row) = merge_item_id row.

End ImportInvariant.

(** ** The commit request and a network that keeps a record *)

Module CommitRequest.
Import Js Client ImportFlow.

(** The request that [commitImport] hands to [fetch] through [apiRequest]. *)
Definition commitRequest (session : Session) (st : State) : Request (list CommitItem) :=
  {| path := "/inventory/import/commit";
     method := POST;
     headers := buildHeaders
                  {| opt_method := POST;
                     opt_token := Some (token session);
                     opt_workspaceId := Some (workspaceId session);
                     opt_body := Some (payloadItems st) |};
     request_body := Some (payloadItems st) |}.

(** A network that records every request before it passes it on. *)
Definition recording {World B} (fetch : Request B → World → Completion Response * World)
  : Request B → World * list (Request B) → Completion Response * (World * list (Request B)) :=
  λ request '(w, log),
    let '(response, w') := fetch request w in
    (response, (w', request :: log)).

End CommitRequest.

(** ** The validation errors of the API, as the client reads them *)

Module ValidationErrors.
Import Js.








End ValidationErrors.

Module MoreClientExamples.
Import Js Api Client ImportFlow.

(** A rejection of the API with a plain message. *)
Definition not_found : Response :=
  {| Client.status := 404;
     body := Some {| text := "{...}";
                     json := Some (Object [("detail", Str "Merge target not found")]) |};
     bodyUsed := false |}.

(** The receipt of the examples with one suggestion per row, in order. *)
Definition aligned_state : State :=
  handleEditableRowChange 0 (with_duplicate_action merge)
    (parseImport_onSuccess ClientExamples.ratio_text ClientExamples.receipt
       {| suggestions :=
            [ {| import_index := 0; import_name := "Nitrile gloves"; import_unit := "box";
                 candidates := []; recommended_action := create_new;
                 recommended_merge_item_id := None |};
              ClientExamples.towels_suggestion ] |}
       initialState).

End MoreClientExamples.

(** ** Strings

    A string is a sequence of characters with codes 0 to 255. *)

Module Text.

(** The white space and line terminators among these characters: tab,
    line feed, vertical tab, form feed, carriage return, space and
    no-break space. *)
Definition is_whitespace (c : Ascii.ascii) : bool :=
  let n := Ascii.nat_of_ascii c in
  ((n =? 9) || (n =? 10) || (n =? 11) || (n =? 12) || (n =? 13) || (n =? 32) || (n =? 160))%nat.

Fixpoint trimStart (s : string) : string :=
  match s with
  | EmptyString => EmptyString
  | String c rest => if is_whitespace c then trimStart rest else s
  end.

Fixpoint trimEnd (s : string) : string :=
  match s with
  | EmptyString => EmptyString
  | String c rest =>
      match trimEnd rest with
      | EmptyString => if is_whitespace c then EmptyString else String c EmptyString
      | kept => String c kept
      end
  end.

(** [s.trim()] *)
Definition trim (s : string) : string := trimEnd (trimStart s).

(** The string is empty or begins with a character that is not white space. *)
Definition starts_clean (s : string) : Prop :=
  match s with EmptyString => True | String c _ => is_whitespace c = false end.

(** [s.split(sep)] for a separator of one character: the pieces between
    the separators, the empty ones included; never an empty array. *)
Fixpoint split (sep : Ascii.ascii) (s : string) : list string :=
  match s with
  | EmptyString => [EmptyString]
  | String c rest =>
      if Ascii.eqb c sep then EmptyString :: split sep rest
      else match split sep rest with
           | [] => [String c EmptyString]
           | piece :: pieces => String c piece :: pieces
           end
  end.

(** Whether the character occurs in the string. *)
Fixpoint occurs (c : Ascii.ascii) (s : string) : bool :=
  match s with
  | EmptyString => false
  | String c' rest => Ascii.eqb c' c || occurs c rest
  end.

Definition comma : Ascii.ascii := Ascii.ascii_of_nat 44.

End Text.

(** ** lib/utils.ts, continued *)

Module Emails.
Import Text.

Definition parseEmailList (input : string) : list string :=
  filter (λ value, value ≠ EmptyString) (trim <$> split comma input).

(** An entry as [parseEmailList] returns them: not empty, without a comma,
    and without white space at either end. *)
Definition clean (value : string) : Prop :=
  value ≠ EmptyString ∧ occurs comma value = false ∧ trim value = value.

End Emails.

(** ** The search box of the inventory table (app/app/page.tsx) *)

Module InventorySearch.
Import Text.

(** [s.toLowerCase()] on the characters 0 to 255: the letters A to Z and
    the accented capitals of the Latin-1 block move to their small forms. *)
Definition lower_char (c : Ascii.ascii) : Ascii.ascii :=
  let n := Ascii.nat_of_ascii c in
  if (((65 <=? n) && (n <=? 90)) || ((192 <=? n) && (n <=? 214))
      || ((216 <=? n) && (n <=? 222)))%nat
  then Ascii.ascii_of_nat (n + 32) else c.

Fixpoint toLowerCase (s : string) : string :=
  match s with
  | EmptyString => EmptyString
  | String c rest => String (lower_char c) (toLowerCase rest)
  end.

Fixpoint startsWith (s searchString : string) : bool :=
  match searchString, s with
  | EmptyString, _ => true
  | String _ _, EmptyString => false
  | String c' wanted, String c rest => Ascii.eqb c c' && startsWith rest wanted
  end.

(** [s.includes(searchString)] *)
Fixpoint includes (s searchString : string) : bool :=
  startsWith s searchString
  || match s with
     | EmptyString => false
     | String _ rest => includes rest searchString
     end.

Definition status_text (status : Api.InventoryStatus) : string :=
  match status with
  | Api.in_stock => "in_stock"
  | Api.low_stock => "low_stock"
  | Api.ordered => "ordered"
  | Api.discontinued => "discontinued"
  end.

(** An item of the table: the fields of [InventoryItemOut] and the
    [vendor] that the page reads beside them. *)
Record TableItem := { fields : Api.InventoryItemOut; vendor : option string }.

(** The callback of [items.filter] in [filteredItems]. *)
Definition matches (term : string) (item : TableItem) : bool :=
  includes (toLowerCase (Api.name (fields item))) term
  || includes (toLowerCase (default EmptyString (vendor item))) term
  || includes (toLowerCase (Api.category (fields item))) term
  || includes (toLowerCase (Api.unit (fields item))) term
  || includes (toLowerCase (status_text (Api.status (fields item)))) term.

Definition searchTerm (tableSearch : string) : string := toLowerCase (trim tableSearch).

Definition filteredItems (items : list TableItem) (tableSearch : string) : list TableItem :=
  let term := searchTerm tableSearch in
  if String.eqb term EmptyString then items
  else filter (λ item, matches term item = true) items.

End InventorySearch.

(** ** lib/storage.ts *)

Module Storage.

Definition TOKEN_KEY : string := "opspilot_token".
Definition WORKSPACE_KEY : string := "opspilot_workspace_id".

(** [window.localStorage], or [None] where there is no [window] (on the
    server). Writes are taken to succeed. *)
Abbreviation Window := (option (gmap string string)).

Definition getToken (window : Window) : option string :=
  window ≫= λ localStorage, localStorage !! TOKEN_KEY.

Definition setToken (token : string) (window : Window) : Window :=
  (λ localStorage, <[TOKEN_KEY := token]> localStorage) <$> window.

Definition clearToken (window : Window) : Window :=
  (λ localStorage, delete TOKEN_KEY localStorage) <$> window.

Definition setWorkspaceId (workspaceId : Z) (window : Window) : Window :=
  (λ localStorage, <[WORKSPACE_KEY := pretty workspaceId]> localStorage) <$> window.

Definition clearWorkspaceId (window : Window) : Window :=
  (λ localStorage, delete WORKSPACE_KEY localStorage) <$> window.

End Storage.

(** ** components/auth-context.tsx *)

Module Auth.

Inductive Role := admin | member.

Record MembershipOut := {
  workspace_id : Z;
  workspace_name : string;
  role : Role
}.

Record MeResponse := {
  id : Z;
  email : string;
  name : string;
  workspaces : list MembershipOut
}.

(** The state of [AuthProvider], with the storage it persists to;
    [queriesCleared] records [queryClient.clear()]. *)
Record State := {
  token : option string;
  workspaceId : option Z;
  window : Storage.Window;
  queriesCleared : bool
}.

(** [workspaceId && ...] *)
Definition truthy (workspaceId : option Z) : bool :=
  match workspaceId with Some z => negb (z =? 0) | None => false end.

(** [workspaces.some((ws) => ws.workspace_id === workspaceId)] *)
Definition is_member (me : MeResponse) (workspaceId : option Z) : bool :=
  existsb (λ ws, bool_decide (Some (workspace_id ws) = workspaceId)) (workspaces me).

(** The effect that settles the workspace once the profile has loaded. *)
Definition selectWorkspace (data : option MeResponse) (st : State) : State :=
  match data with
  | None => st
  | Some me =>
      match workspaces me with
      | [] => st
      | first :: _ =>
          if truthy (workspaceId st) && is_member me (workspaceId st) then st
          else
            let nextWorkspace := workspace_id first in
            {| token := token st;
               workspaceId := Some nextWorkspace;
               window := Storage.setWorkspaceId nextWorkspace (window st);
               queriesCleared := queriesCleared st |}
      end
  end.

Definition setAuthToken (nextToken : string) (st : State) : State :=
  {| token := Some nextToken;
     workspaceId := workspaceId st;
     window := Storage.setToken nextToken (window st);
     queriesCleared := queriesCleared st |}.

Definition logout (st : State) : State :=
  {| token := None;
     workspaceId := None;
     window := Storage.clearWorkspaceId (Storage.clearToken (window st));
     queriesCleared := true |}.

(** The [role] of the context value. *)
Definition currentRole (data : option MeResponse) (st : State) : option Role :=
  match data with
  | None => None
  | Some me =>
      if negb (truthy (workspaceId st)) then None
      else (λ found, role found.2)
             <$> list_find (λ ws, Some (workspace_id ws) = workspaceId st) (workspaces me)
  end.

End Auth.

(** ** Merges inside a batch *)

Module Batch.
Import Api Reconciler.
Local Open Scope Qc_scope.

(** The decision is a merge (or auto) whose target resolves, against the
    store the commit starts from, to the record [k]. *)
Definition targets (policy : Policy) (st : Store) (k : Z) (d : CommitDecision) : bool :=
  match action d with
  | merge | auto => bool_decide (resolve_target policy st d = Some k)
  | create_new | review => false
  end.

(** The quantities that the decisions of a batch merge into the record
    [k], added up. *)
Definition merged_quantity (policy : Policy) (st : Store) (ds : list CommitDecision) (k : Z)
  : Qc :=
  foldr (λ d total, (if targets policy st k d then c_quantity (candidate d) else 0) + total)
    0 ds.

Definition step_targets (k : Z) (step : Step) : bool :=
  match step with
  | MergeInto target _ => bool_decide (target = k)
  | CreateNew _ => false
  end.

(** The same sum over validated steps. *)
Definition steps_quantity (k : Z) (steps : list Step) : Qc :=
  foldr (λ step total,
           (if step_targets k step then c_quantity (step_item step) else 0) + total)
    0 steps.

Definition creates (step : Step) : bool :=
  match step with CreateNew _ => true | MergeInto _ _ => false end.

(** The step that validation hands over for a decision: it carries the
    item and the resolved target of the decision, and creates a record
    exactly when the decision says so. *)
Definition step_of (policy : Policy) (st : Store) (d : CommitDecision) (step : Step) : Prop :=
  step_item step = candidate d
  ∧ (∀ k, step_targets k step = targets policy st k d)
  ∧ creates step = bool_decide (action d = create_new).

(** What merges may do to the status of a record: [discontinued] and
    [ordered] stay, the other two move among themselves. *)
Definition status_kept (r r' : InventoryItemOut) : Prop :=
  match status r with
  | discontinued => status r' = discontinued
  | ordered => status r' = ordered
  | in_stock | low_stock => status r' = in_stock ∨ status r' = low_stock
  end.

End Batch.

(** ** A receipt reviewed against the store of the examples *)

Module ReviewExamples.
Import Api ImportFlow Reconciler.


Definition hand_towels_item : ReceiptItem :=
  {| item_name := "Hand towels"; item_quantity := Some (Qc_of_Z 2);
     item_unit := Some "case"; item_vendor := None; item_category := None;
     item_price := None |}.

Definition receipt : ReceiptExtraction :=
  {| vendor := None; date := None;
     items := [hand_towels_item; ClientExamples.paper_towels_item] |}.

(** The two items of the receipt as the engine reads them. *)
Definition hand_towels : CandidateItem :=
  {| c_name := "Hand towels"; c_quantity := Qc_of_Z 2; c_unit := "case";
     c_category := None; c_vendor := None; c_price := None |}.

Definition candidates : list CandidateItem := [hand_towels; Examples.towels].

(** The answer of the engine on the store of the examples: nothing is
    recommended for the hand towels, record 7 for the paper towels. *)
Definition duplicates : InventoryDuplicateSuggestionResponse :=
  suggestDuplicates Examples.exact_name_policy Examples.store0 candidates.

Definition parsed_state : State :=
  parseImport_onSuccess ClientExamples.ratio_text receipt duplicates initialState.

(** The user sets the first row to [merge] and leaves the rest alone. *)
Definition first_row_on_merge : State :=
  handleEditableRowChange 0 (with_duplicate_action merge) parsed_state.


End ReviewExamples.

(** * Properties *)

(** ** Pagination *)

Section PaginationFacts.
Import Pagination.
Context {A : Type}.
Implicit Types (items : list A) (page pageSize : Z).

Lemma Math_ceil_div_upper a b : 0 < b → a ≤ Math_ceil_div a b * b.
Proof.
  intros Hb. unfold Math_ceil_div.
  pose proof (Z.mul_div_le (- a) b Hb). lia.
Qed.

Lemma Array_slice_window items (s n : nat) :
  Array_slice items (Z.of_nat s) (Z.of_nat s + Z.of_nat n)
  = take n (drop s items).
Proof.
  unfold Array_slice.
  destruct (Z.ltb_spec (Z.of_nat s) 0) as [?|_]; [lia|].
  destruct (Z.ltb_spec (Z.of_nat s + Z.of_nat n) 0) as [?|_]; [lia|].
  destruct (decide (length items ≤ s)%nat) as [Hs|Hs].
  - rewrite !drop_ge by lia. by rewrite !take_nil.
  - replace (Z.to_nat (Z.of_nat s `min` Z.of_nat (length items))) with s by lia.
    destruct (decide (s + n ≤ length items)%nat) as [He|He].
    + f_equal. lia.
    + rewrite !take_ge; [done| |]; rewrite length_drop; lia.
Qed.

Lemma paginateItems_window items page pageSize :
  paginateItems items page pageSize
  = take (Z.to_nat (Z.max 1 pageSize))
      (drop (Z.to_nat ((Z.max 1 page - 1) * Z.max 1 pageSize)) items).
Proof.
  unfold paginateItems. cbv zeta.
  rewrite <-(Array_slice_window items).
  f_equal; nia.
Qed.

Lemma first_pages_concat items pageSize (k : nat) :
  concat ((λ p, paginateItems items p pageSize) <$> seqZ 1 (Z.of_nat k))
  = take (k * Z.to_nat (Z.max 1 pageSize)) items.
Proof.
  induction k as [|k IH]; [done|].
  rewrite seqZ_S, fmap_app, concat_app, IH.
  cbn [fmap list_fmap concat]. rewrite app_nil_r, paginateItems_window.
  replace (Z.to_nat ((1 `max` (1 + Z.of_nat k) - 1) * 1 `max` pageSize))
    with (k * Z.to_nat (1 `max` pageSize))%nat by nia.
  rewrite take_take_drop. f_equal. lia.
Qed.

Lemma allPages_concat items pageSize :
  concat (allPages items pageSize) = items.
Proof.
  unfold allPages.
  set (n := getTotalPages (Z.of_nat (length items)) pageSize).
  assert (Hn : 1 ≤ n) by (unfold n, getTotalPages; lia).
  assert (Hcover : Z.of_nat (length items) ≤ n * Z.max 1 pageSize).
  { pose proof (Math_ceil_div_upper (Z.of_nat (length items)) (Z.max 1 pageSize)).
    unfold n, getTotalPages. nia. }
  rewrite <-(Z2Nat.id n) by lia. rewrite first_pages_concat.
  apply take_ge. nia.
Qed.

Lemma paginateItems_length items page pageSize :
  Z.of_nat (length (paginateItems items page pageSize)) ≤ Z.max 1 pageSize.
Proof. rewrite paginateItems_window, length_take. lia. Qed.

Lemma getTotalPages_pos totalItems pageSize : 1 ≤ getTotalPages totalItems pageSize.
Proof. unfold getTotalPages. lia. Qed.

End PaginationFacts.

(** C9, as the code has it: the pages [1 .. getTotalPages] of a list,
    concatenated, are the list itself, in order; every page holds at
    most [max(1, pageSize)] items; and [getTotalPages] is at least 1
    for every count and page size. *)
Theorem C9_pages_partition_the_list {A} (items : list A) (page pageSize totalItems : Z) :
  concat (Pagination.allPages items pageSize) = items
  ∧ Z.of_nat (length (Pagination.paginateItems items page pageSize)) ≤ Z.max 1 pageSize
  ∧ 1 ≤ Pagination.getTotalPages totalItems pageSize.
Proof.
  split; [apply allPages_concat|].
  split; [apply paginateItems_length | apply getTotalPages_pos].
Qed.

(** C9, as stated, fails for a page size of zero: the first page of a
    one-item list holds one item, which is more than the page size. *)
Lemma C9_page_larger_than_size :
  Pagination.paginateItems ["a"] 1 0 = ["a"]
  ∧ ¬ (Z.of_nat (length (Pagination.paginateItems ["a"] 1 0)) ≤ 0).
Proof. split; [reflexivity | vm_compute; intros H; by apply H]. Qed.

(** ** JavaScript values *)

Section JsFacts.
Import Js.

(** Induction on values, with the elements of arrays and the property
    values of objects covered by the hypothesis. *)
Lemma Value_nested_ind (P : Value → Prop) :
  P Undefined → P Null → (∀ b, P (Bool b)) → (∀ n, P (Number n)) → (∀ s, P (Str s)) →
  (∀ elements, Forall P elements → P (Array elements)) →
  (∀ properties, Forall (λ kv, P kv.2) properties → P (Object properties)) →
  ∀ v, P v.
Proof.
  intros HU HN HB HNum HS HA HO.
  fix IH 1. intros [ | | b | n | s | elements | properties];
    [apply HU | apply HN | apply HB | apply HNum | apply HS | |].
  - apply HA. induction elements as [|x xs IHxs]; constructor; [apply IH | apply IHxs].
  - apply HO. induction properties as [|[k x] ps IHps]; constructor; [apply IH | apply IHps].
Qed.

Lemma forallb_Forall_true {A} (f : A → bool) (xs : list A) :
  forallb f xs = true → Forall (λ x, f x = true) xs.
Proof.
  induction xs as [|x xs IH]; cbn; [by constructor|].
  intros [? ?]%andb_prop. constructor; auto.
Qed.

Lemma mapM_returns {A B} (f : A → Completion B) (xs : list A) :
  Forall (λ x, ∃ y, f x = Return y) xs → ∃ ys, mapM f xs = Return ys.
Proof.
  induction 1 as [|x xs [y Hy] _ [ys Hys]]; [by eexists|].
  exists (y :: ys). cbn. rewrite Hy. cbn. by rewrite Hys.
Qed.

Lemma mapM_throws {A B} (f : A → Completion B) (xs : list A) :
  Exists (λ x, ∃ e, f x = Throw e) xs → ∃ e, mapM f xs = Throw e.
Proof.
  induction 1 as [x xs [e He]|x xs _ [e He]].
  - exists e. cbn. by rewrite He.
  - cbn. destruct (f x) as [y|e']; [|by eexists]. cbn. rewrite He. by eexists.
Qed.

Lemma ToString_stringable v : stringable v = true → ∃ s, ToString v = Return s.
Proof.
  induction v as [ | | [] | n | s | elements IH | properties _] using Value_nested_ind;
    intros Hv; try by eexists.
  - cbn in Hv. apply forallb_Forall_true in Hv.
    destruct (mapM_returns
                (λ x, match x with Undefined | Null => Return EmptyString | _ => ToString x end)
                elements) as [parts Hparts].
    { rewrite Forall_forall in IH, Hv. apply Forall_forall. intros x Hx.
      specialize (IH x Hx). specialize (Hv x Hx).
      destruct x; try (by eexists); by apply IH. }
    cbn. setoid_rewrite Hparts. by eexists.
  - cbn in *. destruct (own_property properties "toString"); [done|by eexists].
Qed.

Lemma forallb_Exists_false {A} (f : A → bool) (xs : list A) :
  forallb f xs = false → Exists (λ x, f x = false) xs.
Proof.
  induction xs as [|x xs IH]; cbn; [done|].
  destruct (f x) eqn:Hx; cbn; [|by constructor]. intros H. by apply Exists_cons_tl, IH.
Qed.

Lemma ToString_not_stringable v : stringable v = false → ∃ e, ToString v = Throw e.
Proof.
  induction v as [ | | [] | n | s | elements IH | properties _] using Value_nested_ind;
    intros Hv; try done.
  - cbn in Hv. apply forallb_Exists_false in Hv.
    destruct (mapM_throws
                (λ x, match x with Undefined | Null => Return EmptyString | _ => ToString x end)
                elements) as [e He].
    { rewrite Forall_forall in IH. apply Exists_exists in Hv as (x & Hx & Hfalse).
      apply Exists_exists. exists x. split; [done|].
      specialize (IH x Hx Hfalse). by destruct x. }
    exists e. cbn. by setoid_rewrite He.
  - cbn in *. destruct (own_property properties "toString"); [by eexists|done].
Qed.

(** An object that carries an own [toString] property does not convert. *)
Lemma ToString_own_toString properties x :
  own_property properties "toString" = Some x →
  ToString (Object properties) = Throw (TypeError "Cannot convert object to primitive value").
Proof. intros H. cbn. by rewrite H. Qed.

End JsFacts.

(** ** normalizeErrorDetail *)

Section UtilsFacts.
Import Js Utils.

Lemma part_text_returns part :
  part_locs_stringable part = true → ∃ s, part_text part = Return s.
Proof.
  unfold part_locs_stringable, part_text. intros Hpart.
  destruct part as [ | | [] | [|z] | s | elements | properties]; try by eexists.
  - cbn. destruct (negb (z =? 0)); by eexists.
  - cbn in *.
    destruct (default Undefined (own_property properties "loc")) as [ | | | | |segments| ];
      try by eexists.
    destruct (mapM_returns ToString segments) as [texts Htexts].
    { apply forallb_Forall_true in Hpart. eapply Forall_impl; [exact Hpart|].
      intros x Hx. by apply ToString_stringable. }
    rewrite Htexts. by eexists.
Qed.

Lemma normalizeErrorDetail_falsy detail :
  ToBoolean detail = false → normalizeErrorDetail detail = Return "Request failed".
Proof. unfold normalizeErrorDetail. by intros ->. Qed.

Lemma normalizeErrorDetail_returns detail :
  locs_stringable detail = true → ∃ message, normalizeErrorDetail detail = Return message.
Proof.
  unfold normalizeErrorDetail. intros Hdetail.
  destruct (ToBoolean detail) eqn:Htruthy; [|by eexists]. cbn [negb].
  destruct detail as [ | | [] | n | s | parts | properties]; try by eexists.
  cbn in *. destruct (mapM_returns part_text parts) as [texts Htexts].
  { apply forallb_Forall_true in Hdetail. eapply Forall_impl; [exact Hdetail|].
    intros x Hx. by apply part_text_returns. }
  setoid_rewrite Htexts. by eexists.
Qed.

Lemma part_text_throws part :
  part_locs_stringable part = false → ∃ e, part_text part = Throw e.
Proof.
  unfold part_locs_stringable, part_text. intros Hpart.
  destruct part as [ | | [] | [|z] | s | elements | properties]; try done.
  - cbn in Hpart. by destruct (negb (z =? 0)).
  - cbn in *.
    destruct (default Undefined (own_property properties "loc")) as [ | | | | |segments| ];
      try done.
    destruct (mapM_throws ToString segments) as [e He].
    { apply forallb_Exists_false in Hpart. eapply Exists_impl; [exact Hpart|].
      intros x Hx. by apply ToString_not_stringable. }
    rewrite He. by eexists.
Qed.

(** The hypothesis of [normalizeErrorDetail_returns] is the exact domain
    on which the function returns. *)
Lemma normalizeErrorDetail_throws detail :
  locs_stringable detail = false → ∃ e, normalizeErrorDetail detail = Throw e.
Proof.
  unfold normalizeErrorDetail. intros Hdetail.
  destruct detail as [ | | [] | n | s | parts | properties]; try done.
  cbn in *. destruct (mapM_throws part_text parts) as [e He].
  { apply forallb_Exists_false in Hdetail. eapply Exists_impl; [exact Hdetail|].
    intros x Hx. by apply part_text_throws. }
  exists e. by setoid_rewrite He.
Qed.

End UtilsFacts.

(** C10, as the code has it: [normalizeErrorDetail] returns a string,
    without throwing, for every input in which the segments of every
    [loc] array convert to strings (no segment is, or holds inside nested
    arrays, an object with an own [toString] property); and for every
    falsy input that string is the fixed fallback. *)
Theorem C10_normalizeErrorDetail_returns (detail : Js.Value) :
  Utils.locs_stringable detail = true →
  ∃ message,
    Utils.normalizeErrorDetail detail = Js.Return message
    ∧ (if Js.ToBoolean detail then True else message = "Request failed"%string).
Proof.
  intros Hdetail. destruct (Js.ToBoolean detail) eqn:Htruthy.
  - destruct (normalizeErrorDetail_returns detail Hdetail) as [message ->]. by eexists.
  - exists "Request failed"%string. split; [|done]. by apply normalizeErrorDetail_falsy.
Qed.

(** C10 at the validation errors of the API, and at [null]. *)
Lemma C10_normalizeErrorDetail_returns_witness :
  (∃ message,
     Utils.normalizeErrorDetail
       (Js.Array [Js.Object [("loc", Js.Array [Js.Str "body"; Js.Str "items";
                                              Js.Number (Js.Int 0); Js.Str "quantity"]);
                             ("msg", Js.Str "Input should be a valid number")]])
     = Js.Return message
     ∧ True)
  ∧ (∃ message,
       Utils.normalizeErrorDetail Js.Null = Js.Return message
       ∧ message = "Request failed"%string).
Proof.
  split.
  - apply (C10_normalizeErrorDetail_returns
             (Js.Array [Js.Object [("loc", Js.Array [Js.Str "body"; Js.Str "items";
                                                    Js.Number (Js.Int 0); Js.Str "quantity"]);
                                   ("msg", Js.Str "Input should be a valid number")]])).
    reflexivity.
  - apply (C10_normalizeErrorDetail_returns Js.Null). reflexivity.
Defined.

(** C10, as stated, fails: on an array whose part has a [loc] segment
    that is an object with an own [toString] property,
    [String(segment)] throws and so does [normalizeErrorDetail]. *)
Lemma C10_normalizeErrorDetail_throws :
  Utils.normalizeErrorDetail
    (Js.Array [Js.Object [("loc", Js.Array [Js.Object [("toString", Js.Number (Js.Int 1))]])]])
  = Js.Throw (Js.TypeError "Cannot convert object to primitive value").
Proof. reflexivity. Qed.

(** ** apiRequest *)

Section ClientFacts.
Import Js Utils Client.

(** A response outside the 2xx range never comes back as a result. *)
Lemma handleResponse_failure_throws response :
  ok response = false → ∃ e, handleResponse response = Throw e.
Proof.
  unfold handleResponse. intros ->. cbn [negb].
  destruct (Response_json response) as [payload response'].
  destruct (payload ≫= _); [by eexists|].
  destruct (Response_text response') as [[text|e'] response'']; by eexists.
Qed.

Lemma status_consume response : status (consume response) = status response.
Proof. unfold consume. by destruct (body response). Qed.

(** A JSON error body gives an [ApiError] with the status and the
    normalized detail. *)
Lemma handleResponse_json_detail response b payload message :
  ok response = false → bodyUsed response = false →
  body response = Some b → json b = Some payload →
  normalizeErrorDetail (nullish (Get_optional payload "detail") payload) = Return message →
  handleResponse response = Throw (ApiError (status response) message).
Proof.
  intros Hok Hused Hbody Hjson Hmessage.
  unfold handleResponse, Response_json, unusable. rewrite Hok, Hbody, Hused, Hjson.
  cbn. rewrite Hmessage. by rewrite status_consume.
Qed.

(** An error body that is not JSON: [response.json()] has read the
    body, so [response.text()] in the [catch] block rejects, and that
    [TypeError] is what [apiRequest] throws. *)
Lemma handleResponse_text_body response b :
  ok response = false → bodyUsed response = false →
  body response = Some b → json b = None →
  handleResponse response = Throw (TypeError "body stream already read").
Proof.
  intros Hok Hused Hbody Hjson.
  unfold handleResponse, Response_json, Response_text, unusable, consume.
  rewrite Hok, Hbody, Hused, Hjson. cbn. done.
Qed.

(** An error response without a body gives the fallback message. *)
Lemma handleResponse_no_body response :
  ok response = false → body response = None →
  handleResponse response = Throw (ApiError (status response) "Request failed").
Proof.
  intros Hok Hbody.
  unfold handleResponse, Response_json, Response_text, unusable, consume.
  rewrite Hok, Hbody. cbn. by rewrite Hbody.
Qed.

End ClientFacts.

(** C7 at a 502 whose body is an HTML page: [apiRequest] throws the
    [TypeError] of the second read of the body, which carries neither
    the status nor the text of the response, where the claim has an
    [ApiError] with status 502. The request itself was issued. *)
Theorem C7_non_json_error_body_raises_TypeError :
  let options := {| Client.opt_method := Client.POST;
                    Client.opt_token := Some "t0k3n"%string;
                    Client.opt_workspaceId := Some 1;
                    Client.opt_body := Some tt |} in
  ∃ request,
    Client.apiRequest (ClientExamples.answering ClientExamples.bad_gateway)
      "/inventory/import/commit" options []
    = (Js.Throw (Js.TypeError "body stream already read"), [request])
    ∧ Client.ok ClientExamples.bad_gateway = false.
Proof. eexists. split; reflexivity. Qed.

(** An error body that is JSON gives the [ApiError] the claim describes. *)
Example apiRequest_unprocessable :
  Client.handleResponse ClientExamples.unprocessable
  = Js.Throw (Js.ApiError 422 "items.0.quantity: Input should be a valid number").
Proof. reflexivity. Qed.

(** ** The import flow *)

Section ImportFlowFacts.
Import Js Api Client ImportFlow.

Lemma existsb_is_review rows :
  existsb is_review rows = true ↔ ∃ row, row ∈ rows ∧ duplicate_action row = review.
Proof.
  rewrite existsb_exists. unfold is_review. split.
  - intros (row & Hin & Hrow). exists row. split; [by apply list_elem_of_In|].
    by apply bool_decide_eq_true in Hrow.
  - intros (row & Hin & Hrow). exists row. split; [by apply list_elem_of_In|].
    by apply bool_decide_eq_true.
Qed.

Lemma payloadItems_lookup st index :
  payloadItems st !! index
  = payloadItem (duplicateSuggestions st) index <$> editableRows st !! index.
Proof. unfold payloadItems. apply list_lookup_imap. Qed.

Lemma suggestionsByIndex_snoc suggestions entry :
  suggestionsByIndex (suggestions ++ [entry])
  = <[import_index entry := entry]> (suggestionsByIndex suggestions).
Proof. unfold suggestionsByIndex. by rewrite foldl_app. Qed.


(** The row at position [i] is initialised from the suggestion that the
    map holds for index [i]. *)
Lemma parseImport_row Number_toString parsed duplicates st (i : nat) item :
  items parsed !! i = Some item →
  editableRows (parseImport_onSuccess Number_toString parsed duplicates st) !! i
  = Some (initialRow Number_toString parsed (suggestionsByIndex (suggestions duplicates)) i item).
Proof. intros Hitem. cbn. by rewrite list_lookup_imap, Hitem. Qed.

End ImportFlowFacts.

(** C1: when a row of the batch is still on [review], the commit throws
    before [fetch] is called: the world behind [fetch] (the API with its
    store, and whatever record of requests it keeps) is as it was, and so
    are the rows, the suggestions and the parsed receipt; only the error
    toast is added. *)
Theorem C1_review_gate {World}
    (fetch : Client.Request (list ImportFlow.CommitItem) → World → Js.Completion Client.Response * World)
    (session : ImportFlow.Session) (st : ImportFlow.State) (w : World)
    (row : ImportFlow.EditableImportRow) :
  row ∈ ImportFlow.editableRows st →
  ImportFlow.duplicate_action row = Api.review →
  ImportFlow.commitImport_mutationFn fetch session st w
  = (Js.Throw (Js.Error "Resolve duplicate decisions before commit."), w)
  ∧ ∃ st',
      ImportFlow.commitImport_mutate fetch session st w = (st', w)
      ∧ ImportFlow.editableRows st' = ImportFlow.editableRows st
      ∧ ImportFlow.duplicateSuggestions st' = ImportFlow.duplicateSuggestions st
      ∧ ImportFlow.parsedImport st' = ImportFlow.parsedImport st
      ∧ ImportFlow.toasts st'
        = ImportFlow.toast_error "Resolve duplicate decisions before commit."
            :: ImportFlow.toasts st.
Proof.
  intros Hrow Hreview.
  assert (Hgate : existsb ImportFlow.is_review (ImportFlow.editableRows st) = true).
  { apply existsb_is_review. eauto. }
  unfold ImportFlow.commitImport_mutate, ImportFlow.commitImport_mutationFn.
  rewrite Hgate. split; [done|]. eexists. split; [done|]. by cbn.
Qed.

(** C1 on a batch of two rows, the first left on [review], against a
    network that records its requests: none is recorded. *)
Lemma C1_review_gate_witness :
  ClientExamples.review_row ∈ ImportFlow.editableRows ClientExamples.first_row_on_review
  ∧ ImportFlow.duplicate_action ClientExamples.review_row = Api.review
  ∧ ImportFlow.commitImport_mutationFn
      (ClientExamples.answering ClientExamples.imported_two)
      ClientExamples.session ClientExamples.first_row_on_review []
    = (Js.Throw (Js.Error "Resolve duplicate decisions before commit."), []).
Proof.
  assert (Hrow : ClientExamples.review_row
                 ∈ ImportFlow.editableRows ClientExamples.first_row_on_review).
  { vm_compute. apply list_elem_of_here. }
  split; [exact Hrow|]. split; [reflexivity|].
  eapply proj1.
  exact (C1_review_gate _ _ ClientExamples.first_row_on_review []
           ClientExamples.review_row Hrow eq_refl).
Defined.

(** The fallback of [commitImport] reads the suggestion at the position
    of the row, where [parseImport] reads the one recorded for its
    index. The two agree on every answer that holds one suggestion per
    item in order. On an answer that does not, here a single suggestion
    for the second row, a first row set to [merge] goes out with record
    7, the recommendation for the second row. *)
Lemma fallback_reads_by_position :
  let st := ClientExamples.first_row_on_merge in
  (∃ row, ImportFlow.editableRows st !! 0%nat = Some row
          ∧ ImportFlow.duplicate_action row = Api.merge
          ∧ ImportFlow.merge_item_id row = None)
  ∧ ImportFlow.suggestionsByIndex (ImportFlow.duplicateSuggestions st) !! 0 = None
  ∧ (∃ item, ImportFlow.payloadItems st !! 0%nat = Some item
             ∧ ImportFlow.commit_merge_item_id item = Some 7)
  ∧ ∃ items request,
      ImportFlow.commitImport_mutationFn
        (ClientExamples.answering ClientExamples.imported_two)
        ClientExamples.session st []
      = (Js.Return items, [request])
      ∧ Client.request_body request = Some (ImportFlow.payloadItems st).
Proof.
  intros st. split; [|split; [|split]].
  - eexists. split; [reflexivity|]. split; reflexivity.
  - reflexivity.
  - eexists. split; reflexivity.
  - eexists _, _. split; reflexivity.
Qed.

(** ** Suggestions and the review rows *)

Section SuggestionFacts.
Import Api Reconciler.




End SuggestionFacts.



(** C8: when the commit resolves with the list of imported items, the
    parsed receipt, the suggestions, the rows, the import text and the
    selected file (with the value of the file input) are all reset, the
    import table is back on page 1, and the item list is marked stale. *)
Theorem C8_commit_success_clears_import_state {World}
    (fetch : Client.Request (list ImportFlow.CommitItem) → World → Js.Completion Client.Response * World)
    (session : ImportFlow.Session) (st : ImportFlow.State) (w w' : World)
    (items : list Js.Value) :
  ImportFlow.commitImport_mutationFn fetch session st w = (Js.Return (Js.Array items), w') →
  ∃ st',
    ImportFlow.commitImport_mutate fetch session st w = (st', w')
    ∧ ImportFlow.parsedImport st' = None
    ∧ ImportFlow.duplicateSuggestions st' = []
    ∧ ImportFlow.editableRows st' = []
    ∧ ImportFlow.importText st' = EmptyString
    ∧ ImportFlow.importFile st' = None
    ∧ ImportFlow.fileInput st' = (λ _, EmptyString) <$> ImportFlow.fileInput st
    ∧ ImportFlow.importPage st' = 1
    ∧ ImportFlow.inventoryItemsStale st' = true.
Proof.
  intros Hcommit. unfold ImportFlow.commitImport_mutate. rewrite Hcommit.
  cbn. eexists. split; [reflexivity|]. by cbn.
Qed.

(** C8 on the receipt of the examples, committed against a network that
    answers with two imported items. *)
Lemma C8_commit_success_clears_import_state_witness :
  ∃ items log st',
    ImportFlow.commitImport_mutationFn (ClientExamples.answering ClientExamples.imported_two)
      ClientExamples.session ClientExamples.first_row_on_merge []
    = (Js.Return (Js.Array items), log)
    ∧ ImportFlow.commitImport_mutate (ClientExamples.answering ClientExamples.imported_two)
        ClientExamples.session ClientExamples.first_row_on_merge []
      = (st', log)
    ∧ ImportFlow.editableRows ClientExamples.first_row_on_merge ≠ []
    ∧ ImportFlow.editableRows st' = []
    ∧ ImportFlow.duplicateSuggestions st' = []
    ∧ ImportFlow.parsedImport st' = None.
Proof.
  destruct (C8_commit_success_clears_import_state
              (ClientExamples.answering ClientExamples.imported_two)
              ClientExamples.session ClientExamples.first_row_on_merge [] _ _ eq_refl)
    as (st' & Hmutate & Hparsed & Hsuggestions & Hrows & _).
  eexists _, _, st'. split; [reflexivity|]. split; [exact Hmutate|].
  split; [discriminate|]. split; [exact Hrows|]. split; [exact Hsuggestions|exact Hparsed].
Defined.

(** ** The commit reconciler *)

Section ReconcilerFacts.
Import Api Reconciler.
Local Open Scope Qc_scope.

Variable policy : Policy.
Variable workspace : Z.
Implicit Types (st : gmap Z InventoryItemOut) (d : CommitDecision) (ds : list CommitDecision).

Lemma validate_decision_rejects st index d :
  fails_validation policy st d → ∃ e, validate_decision policy st index d = inl e.
Proof.
  unfold fails_validation, invalid_merge_target, validate_decision.
  intros [Hneg|[Hreview|[Haction Htarget]]].
  - rewrite decide_True by done. by eexists.
  - rewrite Hreview. case_decide; by eexists.
  - case_decide; [by eexists|].
    destruct Haction as [-> | ->];
      (destruct (resolve_target policy st d) as [target|]; [rewrite Htarget|]; by eexists).
Qed.

Lemma validate_decision_accepts st index d step :
  validate_decision policy st index d = inr step → ¬ fails_validation policy st d.
Proof.
  intros Hstep Hfails.
  destruct (validate_decision_rejects st index d Hfails) as [e He]. congruence.
Qed.

(** A row passes step 1 unless it fails validation. *)
Lemma validate_decision_total st index d :
  (∃ e, validate_decision policy st index d = inl e ∧ fails_validation policy st d)
  ∨ (∃ step, validate_decision policy st index d = inr step).
Proof.
  unfold validate_decision, fails_validation, invalid_merge_target.
  case_decide; [left; eauto|].
  destruct (action d) eqn:Haction; try (right; by eexists); try (left; by eauto 6).
  all: destruct (resolve_target policy st d) as [target|] eqn:Htarget;
    [destruct (st !! target) eqn:Hlookup|]; try (right; by eexists).
  all: left; eexists; split; [done|]; right; right; rewrite ?Htarget; eauto.
Qed.

Lemma validate_from_inr st index ds steps :
  validate_from policy st index ds = inr steps →
  length steps = length ds ∧ ∀ d, d ∈ ds → ¬ fails_validation policy st d.
Proof.
  revert index steps. induction ds as [|d ds IH]; intros index steps; cbn.
  - intros [= <-]. split; [done|]. by intros d Hd%not_elem_of_nil.
  - destruct (validate_decision policy st index d) as [e|step] eqn:Hd; [done|].
    destruct (validate_from policy st (S index) ds) as [e|steps'] eqn:Hds; [done|].
    intros [= <-]. destruct (IH _ _ Hds) as [Hlength Hrest].
    split; [cbn; by rewrite Hlength|].
    intros d' [->|Hin]%elem_of_cons; [by eapply validate_decision_accepts|by apply Hrest].
Qed.

Lemma validate_from_inl st index ds e :
  validate_from policy st index ds = inl e →
  ∃ d, d ∈ ds ∧ fails_validation policy st d.
Proof.
  revert index e. induction ds as [|d ds IH]; intros index e; cbn; [done|].
  destruct (validate_decision_total st index d) as [(e' & -> & Hfails)|[step ->]].
  - intros _. exists d. split; [apply list_elem_of_here|done].
  - destruct (validate_from policy st (S index) ds) as [e'|steps] eqn:Hds; [|done].
    intros _. destruct (IH _ _ Hds) as (d' & Hin & Hfails).
    exists d'. split; [by apply list_elem_of_further|done].
Qed.

Lemma validate_from_targets st index ds steps :
  validate_from policy st index ds = inr steps → targets_exist st steps.
Proof.
  revert index steps. induction ds as [|d ds IH]; intros index steps; cbn.
  - intros [= <-]. constructor.
  - destruct (validate_decision policy st index d) as [e|step] eqn:Hd; [done|].
    destruct (validate_from policy st (S index) ds) as [e|steps'] eqn:Hds; [done|].
    intros [= <-]. constructor; [|by eapply IH].
    unfold validate_decision in Hd. case_decide; [done|].
    destruct (action d); try done; try (by injection Hd as <-).
    all: destruct (resolve_target policy st d) as [target|]; [|done].
    all: destruct (st !! target) eqn:Hlookup; [|done].
    all: injection Hd as <-; by rewrite Hlookup.
Qed.

Lemma apply_step_keeps_records st st' step r k :
  apply_step policy workspace st step = Some (st', r) →
  is_Some (st !! k) → is_Some (st' !! k).
Proof.
  destruct step as [item|target item]; cbn.
  - intros [= <- <-] Hk. rewrite lookup_insert. case_decide; [by eexists|done].
  - destruct (st !! target) as [r0|]; [|done]. cbn.
    intros [= <- <-] Hk. rewrite lookup_insert. case_decide; [by eexists|done].
Qed.

(** Step 2 cannot fail on a validated batch: the store only grows. *)
Lemma apply_from_total st index steps :
  targets_exist st steps →
  ∃ st' rs, apply_from policy workspace st index steps = inr (st', rs)
            ∧ length rs = length steps.
Proof.
  revert st index. induction steps as [|step steps IH]; intros st index Hsteps; cbn.
  { by eexists _, _. }
  apply Forall_cons in Hsteps as [Hstep Hsteps].
  assert (∃ st1 r, apply_step policy workspace st step = Some (st1, r)) as (st1 & r & Hst1).
  { destruct step as [item|target item]; cbn; [by eexists _, _|].
    destruct Hstep as [r0 ->]. by eexists _, _. }
  rewrite Hst1.
  destruct (IH st1 (S index)) as (st' & rs & -> & Hlength).
  { eapply Forall_impl; [exact Hsteps|]. intros [item|target item]; [done|].
    by eapply apply_step_keeps_records. }
  eexists _, _. split; [done|]. cbn. by rewrite Hlength.
Qed.

Lemma validate_inr st ds steps :
  validate policy st ds = inr steps → validate_from policy st 0 ds = inr steps.
Proof. unfold validate. by destruct (list_find _ ds) as [[??]|]. Qed.

Lemma validate_inl st ds e :
  validate policy st ds = inl e → ∃ d, d ∈ ds ∧ fails_validation policy st d.
Proof.
  unfold validate. destruct (list_find _ ds) as [[index d]|] eqn:Hfind.
  - intros _. apply list_find_Some in Hfind as (Hd & Hreview & _).
    exists d. split; [by eapply list_elem_of_lookup_2|]. right. by left.
  - apply validate_from_inl.
Qed.

(** The commit either rejects the batch, and then the store is the one
    before the call and some decision fails validation, or applies
    every decision, and then none fails validation. *)
Lemma commit_all_or_nothing st ds :
  match commit policy workspace st ds with
  | (st', inl e) => st' = st ∧ ∃ d, d ∈ ds ∧ fails_validation policy st d
  | (st', inr rs) => length rs = length ds ∧ ∀ d, d ∈ ds → ¬ fails_validation policy st d
  end.
Proof.
  unfold commit. destruct (validate policy st ds) as [e|steps] eqn:Hvalidate.
  - split; [done|]. by eapply validate_inl.
  - apply validate_inr in Hvalidate.
    destruct (apply_from_total st 0%nat steps) as (st' & rs & -> & Hlength).
    { by eapply validate_from_targets. }
    apply validate_from_inr in Hvalidate as [Hsteps Hvalid].
    split; [congruence|done].
Qed.

Lemma commit_rejects st ds d :
  d ∈ ds → fails_validation policy st d → ∃ e, commit policy workspace st ds = (st, inl e).
Proof.
  intros Hd Hfails. pose proof (commit_all_or_nothing st ds) as Hcommit.
  destruct (commit policy workspace st ds) as [st' [e|rs]].
  - destruct Hcommit as [-> _]. by eexists.
  - destruct Hcommit as [_ Hvalid]. by destruct (Hvalid d Hd).
Qed.

Lemma validate_from_quantities st index ds steps :
  validate_from policy st index ds = inr steps →
  Forall (λ step, 0 ≤ c_quantity (step_item step)) steps.
Proof.
  revert index steps. induction ds as [|d ds IH]; intros index steps; cbn.
  - intros [= <-]. constructor.
  - destruct (validate_decision policy st index d) as [e|step] eqn:Hd; [done|].
    destruct (validate_from policy st (S index) ds) as [e|steps'] eqn:Hds; [done|].
    intros [= <-]. constructor; [|by eapply IH].
    unfold validate_decision in Hd. case_decide as Hq; [done|].
    apply Qcnot_lt_le in Hq.
    destruct (action d); try done; try (by injection Hd as <-).
    all: destruct (resolve_target policy st d) as [target|]; [|done].
    all: destruct (st !! target); [|done].
    all: by injection Hd as <-.
Qed.

Lemma apply_step_quantities st st' step r :
  0 ≤ c_quantity (step_item step) →
  quantities_nonnegative st →
  apply_step policy workspace st step = Some (st', r) →
  quantities_nonnegative st'.
Proof.
  intros Hq Hst. destruct step as [item|target item]; cbn in *.
  - intros [= <- <-]. by apply map_Forall_insert_2.
  - destruct (st !! target) as [r0|] eqn:Hr0; [|done]. cbn.
    intros [= <- <-]. apply map_Forall_insert_2; [|done]. cbn.
    rewrite <-(Qcplus_0_l 0). apply Qcplus_le_compat; [|done].
    by apply (Hst target).
Qed.

Lemma apply_from_quantities st st' index steps rs :
  Forall (λ step, 0 ≤ c_quantity (step_item step)) steps →
  quantities_nonnegative st →
  apply_from policy workspace st index steps = inr (st', rs) →
  quantities_nonnegative st'.
Proof.
  revert st index rs. induction steps as [|step steps IH]; intros st index rs Hsteps Hst; cbn.
  - by intros [= <- <-].
  - apply Forall_cons in Hsteps as [Hstep Hsteps].
    destruct (apply_step policy workspace st step) as [[st1 r]|] eqn:Hst1; [|done].
    destruct (apply_from policy workspace st1 (S index) steps) as [e|[st2 rs2]] eqn:Hst2;
      [done|].
    intros [= <- <-]. eapply IH; [done| |done]. by eapply apply_step_quantities.
Qed.

(** Whatever the batch, a commit on a store without negative quantities
    leaves a store without negative quantities. *)
Lemma commit_keeps_quantities_nonnegative st ds :
  quantities_nonnegative st →
  quantities_nonnegative (commit policy workspace st ds).1.
Proof.
  intros Hst. unfold commit.
  destruct (validate policy st ds) as [e|steps] eqn:Hvalidate; [done|].
  apply validate_inr in Hvalidate.
  destruct (apply_from policy workspace st 0 steps) as [e|[st' rs]] eqn:Happly; [done|].
  cbn. eapply apply_from_quantities; [|done|done]. by eapply validate_from_quantities.
Qed.

(** The commit of a single well-formed merge. *)
Lemma commit_single_merge st d target r :
  merges_into policy st d target r →
  commit policy workspace st [d]
  = (<[target := merge_into r (candidate d)]> st, inr [merge_into r (candidate d)]).
Proof.
  intros (Haction & Hquantity & Htarget & Hr).
  assert (Hnot_review : action d ≠ review) by (destruct Haction as [-> | ->]; done).
  unfold commit, validate. cbn [list_find].
  rewrite decide_False by done. cbn.
  unfold validate_decision. rewrite decide_False by (by apply Qcle_not_lt).
  rewrite Htarget, Hr.
  destruct Haction as [-> | ->]; cbn; rewrite Hr; done.
Qed.

End ReconcilerFacts.

(** ** Merges inside a batch *)

Section BatchFacts.
Import Api Reconciler Batch.
Local Open Scope Qc_scope.

Variable policy : Policy.
Variable workspace : Z.
Implicit Types (st : gmap Z InventoryItemOut) (d : CommitDecision) (ds : list CommitDecision).

Lemma Qcplus_swap (a b c : Qc) : a + (b + c) = b + a + c.
Proof. by rewrite Qcplus_assoc, (Qcplus_comm a b). Qed.

Lemma status_kept_refl r : status_kept r r.
Proof. unfold status_kept. destruct (status r); auto. Qed.

Lemma status_kept_trans r1 r2 r3 :
  status_kept r1 r2 → status_kept r2 r3 → status_kept r1 r3.
Proof.
  unfold status_kept.
  destruct (status r1); intros H12 H23; try destruct H12 as [H12|H12];
    by rewrite H12 in H23.
Qed.

Lemma merge_into_status_kept r item : status_kept r (merge_into r item).
Proof.
  unfold status_kept. cbn. unfold merged_status, stock_status.
  destruct (status r); try done; case_decide; auto.
Qed.

(** One step, seen from a record of the store: a merge into it adds the
    quantity of the item, any other step leaves it as it is. *)
Lemma apply_step_record st st1 step r1 k r :
  apply_step policy workspace st step = Some (st1, r1) →
  st !! k = Some r →
  ∃ r', st1 !! k = Some r'
    ∧ quantity r' = (if step_targets k step then c_quantity (step_item step) else 0) + quantity r
    ∧ status_kept r r'
    ∧ (step_targets k step = false → r' = r)
    ∧ (step_targets k step = true → r1 = r').
Proof.
  intros Hstep Hk. destruct step as [item|target item]; cbn in *.
  - injection Hstep as <- <-. exists r.
    rewrite lookup_insert_ne.
    2:{ intros <-. apply (is_fresh (dom st)). by eapply elem_of_dom_2. }
    split; [done|]. split; [by rewrite Qcplus_0_l|].
    split; [apply status_kept_refl|]. split; done.
  - destruct (st !! target) as [r0|] eqn:Hr0; [|done]. cbn in Hstep.
    injection Hstep as <- <-. case_bool_decide as Htarget.
    + subst k. assert (r0 = r) as -> by congruence.
      exists (merge_into r item). rewrite lookup_insert_eq.
      split; [done|]. split; [cbn; apply Qcplus_comm|].
      split; [apply merge_into_status_kept|]. split; done.
    + exists r. rewrite lookup_insert_ne by done.
      split; [done|]. split; [by rewrite Qcplus_0_l|].
      split; [apply status_kept_refl|]. split; done.
Qed.

(** All the steps, seen from a record of the store. *)
Lemma apply_from_record st st' index steps rs k r :
  apply_from policy workspace st index steps = inr (st', rs) →
  st !! k = Some r →
  ∃ r', st' !! k = Some r'
    ∧ quantity r' = steps_quantity k steps + quantity r
    ∧ status_kept r r'
    ∧ (Forall (λ step, step_targets k step = false) steps → r' = r).
Proof.
  revert st index rs r. induction steps as [|step steps IH]; intros st index rs r; cbn.
  - intros [= <- <-] Hk. exists r. split; [done|]. split; [by rewrite Qcplus_0_l|].
    split; [apply status_kept_refl|done].
  - destruct (apply_step policy workspace st step) as [[st1 r1]|] eqn:Hst1; [|done].
    destruct (apply_from policy workspace st1 (S index) steps) as [e|[st2 rs2]] eqn:Hst2;
      [done|].
    intros [= <- <-] Hk.
    destruct (apply_step_record _ _ _ _ _ _ Hst1 Hk)
      as (r1' & Hk1 & Hquantity1 & Hstatus1 & Hsame1 & _).
    destruct (IH _ _ _ _ Hst2 Hk1) as (r' & Hk' & Hquantity & Hstatus & Hsame).
    exists r'. split; [done|]. split.
    { rewrite Hquantity, Hquantity1. apply Qcplus_swap. }
    split; [by eapply status_kept_trans|].
    intros [Hstep Hsteps]%Forall_cons. rewrite (Hsame Hsteps). by apply Hsame1.
Qed.

(** The record returned for a merge: the quantity of its item on top of
    what the earlier steps of the batch merged into the target. *)
Lemma apply_from_row st st' index steps rs (i : nat) target item r :
  apply_from policy workspace st index steps = inr (st', rs) →
  steps !! i = Some (MergeInto target item) →
  st !! target = Some r →
  ∃ r', rs !! i = Some r'
    ∧ quantity r' = c_quantity item + (steps_quantity target (take i steps) + quantity r)
    ∧ status_kept r r'.
Proof.
  revert st index rs r i. induction steps as [|step steps IH]; intros st index rs r i; cbn;
    [done|].
  destruct (apply_step policy workspace st step) as [[st1 r1]|] eqn:Hst1; [|done].
  destruct (apply_from policy workspace st1 (S index) steps) as [e|[st2 rs2]] eqn:Hst2;
    [done|].
  intros [= <- <-] Hi Hk.
  destruct (apply_step_record _ _ _ _ _ _ Hst1 Hk)
    as (r1' & Hk1 & Hquantity1 & Hstatus1 & _ & Hreturned).
  destruct i as [|i]; cbn in Hi |- *.
  - injection Hi as ->. cbn in *. rewrite bool_decide_eq_true_2 in * by done.
    rewrite (Hreturned eq_refl). exists r1'. split; [done|].
    split; [by rewrite Qcplus_0_l|done].
  - destruct (IH _ _ _ _ _ Hst2 Hi Hk1) as (r' & Hr' & Hquantity & Hstatus).
    exists r'. split; [done|]. split.
    { rewrite Hquantity, Hquantity1. f_equal. apply Qcplus_swap. }
    by eapply status_kept_trans.
Qed.

(** The steps that validation hands over carry the items and the
    resolved targets of the decisions, row by row. *)
Lemma validate_from_steps st index ds steps :
  validate_from policy st index ds = inr steps → Forall2 (step_of policy st) ds steps.
Proof.
  revert index steps. induction ds as [|d ds IH]; intros index steps; cbn.
  - intros [= <-]. constructor.
  - destruct (validate_decision policy st index d) as [e|step] eqn:Hd; [done|].
    destruct (validate_from policy st (S index) ds) as [e|steps'] eqn:Hds; [done|].
    intros [= <-]. constructor; [|by eapply IH].
    unfold validate_decision in Hd. case_decide; [done|].
    unfold step_of, targets.
    destruct (action d); try done; try (by injection Hd as <-).
    all: destruct (resolve_target policy st d) as [target|]; [|done].
    all: destruct (st !! target); [|done].
    all: injection Hd as <-; split; [done|]; split; [|done].
    all: intros k; cbn; apply bool_decide_ext; split; congruence.
Qed.

Lemma steps_quantity_decisions st ds steps k :
  Forall2 (step_of policy st) ds steps →
  steps_quantity k steps = merged_quantity policy st ds k.
Proof.
  induction 1 as [|d step ds steps (Hitem & Htargets & _) _ IH]; [done|].
  unfold steps_quantity, merged_quantity in *. cbn. by rewrite IH, Hitem, Htargets.
Qed.

(** Merges add no record to the store. *)
Lemma apply_from_absent st st' index steps rs k :
  apply_from policy workspace st index steps = inr (st', rs) →
  Forall (λ step, creates step = false) steps →
  st !! k = None → st' !! k = None.
Proof.
  revert st index rs. induction steps as [|step steps IH]; intros st index rs; cbn.
  - by intros [= <- <-].
  - destruct (apply_step policy workspace st step) as [[st1 r1]|] eqn:Hst1; [|done].
    destruct (apply_from policy workspace st1 (S index) steps) as [e|[st2 rs2]] eqn:Hst2;
      [done|].
    intros [= <- <-] [Hstep Hsteps]%Forall_cons Hk.
    eapply IH; [done|done|].
    destruct step as [item|target item]; [done|]. cbn in Hst1.
    destruct (st !! target) as [r0|] eqn:Hr0; [|done]. cbn in Hst1.
    injection Hst1 as <- <-. rewrite lookup_insert_ne; [done|]. congruence.
Qed.

Lemma merged_quantity_nonnegative st ds k :
  (∀ d, d ∈ ds → ¬ fails_validation policy st d) →
  0 ≤ merged_quantity policy st ds k.
Proof.
  induction ds as [|d ds IH]; intros Hvalid; cbn; [done|].
  rewrite <-(Qcplus_0_l 0). apply Qcplus_le_compat.
  - destruct (targets policy st k d); [|done].
    apply Qcnot_lt_le. intros Hnegative.
    apply (Hvalid d); [apply list_elem_of_here|by left].
  - apply IH. intros d' Hd'. apply Hvalid. by apply list_elem_of_further.
Qed.

(** The commit of a batch in which no decision fails validation, seen
    from the rows and from the records of the store. *)
Lemma commit_merges st ds :
  (∀ d, d ∈ ds → ¬ fails_validation policy st d) →
  ∃ st' rs,
    commit policy workspace st ds = (st', inr rs)
    ∧ length rs = length ds
    ∧ (∀ (i : nat) d target,
         ds !! i = Some d → targets policy st target d = true →
         ∃ r r',
           st !! target = Some r
           ∧ rs !! i = Some r'
           ∧ quantity r'
             = c_quantity (candidate d)
               + (merged_quantity policy st (take i ds) target + quantity r)
           ∧ status_kept r r')
    ∧ (∀ k r,
         st !! k = Some r →
         ∃ r',
           st' !! k = Some r'
           ∧ quantity r' = merged_quantity policy st ds k + quantity r
           ∧ status_kept r r'
           ∧ ((∀ d, d ∈ ds → targets policy st k d = false) → r' = r))
    ∧ ((∀ d, d ∈ ds → action d ≠ create_new) → ∀ k, st !! k = None → st' !! k = None).
Proof.
  intros Hvalid.
  destruct (validate policy st ds) as [e|steps] eqn:Hvalidate.
  { apply validate_inl in Hvalidate as (d & Hd & Hfails). by destruct (Hvalid d Hd). }
  pose proof Hvalidate as Hfrom. apply validate_inr in Hfrom.
  pose proof Hfrom as Htargets. apply validate_from_targets in Htargets.
  pose proof Hfrom as Hsteps. apply validate_from_steps in Hsteps.
  destruct (apply_from_total policy workspace st 0%nat steps Htargets)
    as (st' & rs & Happly & Hlength).
  exists st', rs. split; [unfold commit; by rewrite Hvalidate, Happly|].
  split; [rewrite Hlength; symmetry; by eapply Forall2_length|].
  split; [|split].
  - intros i d target Hd Htarget.
    destruct (Forall2_lookup_l _ _ _ _ _ Hsteps Hd)
      as (step & Hstep & Hitem & Hstep_targets & _).
    rewrite <-Hstep_targets in Htarget.
    destruct step as [item|target' item]; cbn in Htarget, Hitem; [done|].
    apply bool_decide_eq_true in Htarget as ->. subst item.
    destruct (proj1 (Forall_lookup _ _) Htargets _ _ Hstep) as [r Hr].
    destruct (apply_from_row _ _ _ _ _ _ _ _ _ Happly Hstep Hr)
      as (r' & Hr' & Hquantity & Hstatus).
    exists r, r'. split; [done|]. split; [done|]. split; [|done].
    rewrite Hquantity. f_equal. f_equal.
    apply steps_quantity_decisions. by apply Forall2_take.
  - intros k r Hk.
    destruct (apply_from_record _ _ _ _ _ _ _ Happly Hk)
      as (r' & Hk' & Hquantity & Hstatus & Hsame).
    exists r'. split; [done|]. split.
    { rewrite Hquantity. f_equal. by apply steps_quantity_decisions. }
    split; [done|]. intros Huntouched. apply Hsame.
    apply Forall_lookup. intros i step Hstep.
    destruct (Forall2_lookup_r _ _ _ _ _ Hsteps Hstep) as (d & Hd & _ & Hstep_targets & _).
    rewrite Hstep_targets. apply Huntouched. by eapply list_elem_of_lookup_2.
  - intros Hmerges k. eapply apply_from_absent; [done|].
    apply Forall_lookup. intros i step Hstep.
    destruct (Forall2_lookup_r _ _ _ _ _ Hsteps Hstep) as (d & Hd & _ & _ & Hcreates).
    rewrite Hcreates. apply bool_decide_eq_false. apply Hmerges.
    by eapply list_elem_of_lookup_2.
Qed.

End BatchFacts.

(** C2: a batch in which some decision fails validation (a negative
    quantity, a row left on [review], or a merge whose target does not
    resolve to a record of the store) is rejected, and the store after
    the call is the store before it. *)
Theorem C2_failed_commit_leaves_store
    (policy : Reconciler.Policy) (workspace : Z) (st : gmap Z Api.InventoryItemOut)
    (ds : list Reconciler.CommitDecision) (d : Reconciler.CommitDecision) :
  d ∈ ds →
  Reconciler.fails_validation policy st d →
  ∃ e, Reconciler.commit policy workspace st ds = (st, inl e).
Proof. apply commit_rejects. Qed.

(** C2 on a batch of three decisions whose last one merges into a record
    that does not exist: the two valid decisions before it leave no
    trace. *)
Lemma C2_failed_commit_leaves_store_witness :
  let ds := [Examples.merge_towels; Examples.create_stapler; Examples.merge_missing] in
  Examples.merge_missing ∈ ds
  ∧ Reconciler.fails_validation Examples.exact_name_policy Examples.store0 Examples.merge_missing
  ∧ ∃ e, Reconciler.commit Examples.exact_name_policy 1 Examples.store0 ds
         = (Examples.store0, inl e).
Proof.
  intros ds.
  assert (Hin : Examples.merge_missing ∈ ds).
  { apply list_elem_of_further, list_elem_of_further, list_elem_of_here. }
  assert (Hfails : Reconciler.fails_validation Examples.exact_name_policy Examples.store0
                     Examples.merge_missing).
  { right. right. split; [by left|]. reflexivity. }
  split; [exact Hin|]. split; [exact Hfails|].
  exact (C2_failed_commit_leaves_store Examples.exact_name_policy 1 Examples.store0 ds
           Examples.merge_missing Hin Hfails).
Defined.

(** C3: in a batch that the commit accepts (no decision fails
    validation), every merge adds the quantity [q] of its candidate to
    what its target holds when the row is applied: the record returned
    for row [i] holds [q] plus what the rows before [i] merged into the
    target plus the quantity [r] the store held for it. After the commit
    a record of the store holds what the whole batch merged into it plus
    its quantity before, which is not negative when that was not; a
    record that no merge of the batch targets is as it was, and a batch
    of merges adds no record. *)
Theorem C3_merge_adds_quantity
    (policy : Reconciler.Policy) (workspace : Z) (st : gmap Z Api.InventoryItemOut)
    (ds : list Reconciler.CommitDecision) :
  (∀ d, d ∈ ds → ¬ Reconciler.fails_validation policy st d) →
  ∃ st' rs,
    Reconciler.commit policy workspace st ds = (st', inr rs)
    ∧ length rs = length ds
    ∧ (∀ (i : nat) d target,
         ds !! i = Some d → Batch.targets policy st target d = true →
         ∃ r r',
           st !! target = Some r
           ∧ rs !! i = Some r'
           ∧ Api.quantity r'
             = (Reconciler.c_quantity (Reconciler.candidate d)
                + (Batch.merged_quantity policy st (take i ds) target + Api.quantity r))%Qc)
    ∧ (∀ k r,
         st !! k = Some r →
         ∃ r',
           st' !! k = Some r'
           ∧ Api.quantity r' = (Batch.merged_quantity policy st ds k + Api.quantity r)%Qc
           ∧ ((0 ≤ Api.quantity r)%Qc → (0 ≤ Api.quantity r')%Qc)
           ∧ ((∀ d, d ∈ ds → Batch.targets policy st k d = false) → r' = r))
    ∧ ((∀ d, d ∈ ds → Reconciler.action d ≠ Api.create_new) →
       ∀ k, st !! k = None → st' !! k = None).
Proof.
  intros Hvalid.
  destruct (commit_merges policy workspace st ds Hvalid)
    as (st' & rs & Hcommit & Hlength & Hrows & Hrecords & Habsent).
  exists st', rs. split; [done|]. split; [done|]. split; [|split; [|done]].
  - intros i d target Hd Htarget.
    destruct (Hrows i d target Hd Htarget) as (r & r' & Hr & Hr' & Hquantity & _).
    by exists r, r'.
  - intros k r Hk.
    destruct (Hrecords k r Hk) as (r' & Hk' & Hquantity & _ & Hsame).
    exists r'. split; [done|]. split; [done|]. split; [|done].
    intros Hr. rewrite Hquantity, <-(Qcplus_0_l 0).
    apply Qcplus_le_compat; [by apply merged_quantity_nonnegative|done].
Qed.

(** C3 on the store of the examples, with a batch of four rows: paper
    towels merged into record 7, a stapler created, printers merged into
    record 9, and paper towels merged into record 7 again. Record 7,
    which held three cases, is returned with five for the first row and
    with seven for the last, and holds seven after the commit; record 9,
    which held one printer, holds five. *)
Lemma C3_merge_adds_quantity_witness :
  let ds := [Examples.merge_towels; Examples.create_stapler; Examples.merge_printer;
             Examples.merge_towels] in
  (∀ d, d ∈ ds → ¬ Reconciler.fails_validation Examples.exact_name_policy Examples.store0 d)
  ∧ ∃ st' rs,
      Reconciler.commit Examples.exact_name_policy 1 Examples.store0 ds = (st', inr rs)
      ∧ length rs = 4%nat
      ∧ (∃ r', rs !! 0%nat = Some r' ∧ Qcanon.this (Api.quantity r') = 5 # 1)
      ∧ (∃ r', rs !! 3%nat = Some r' ∧ Qcanon.this (Api.quantity r') = 7 # 1)
      ∧ (∃ r', st' !! 7 = Some r' ∧ Qcanon.this (Api.quantity r') = 7 # 1)
      ∧ (∃ r', st' !! 9 = Some r' ∧ Qcanon.this (Api.quantity r') = 5 # 1).
Proof.
  intros ds.
  assert (Hvalid : ∀ d, d ∈ ds
                        → ¬ Reconciler.fails_validation Examples.exact_name_policy
                              Examples.store0 d).
  { intros d Hd. unfold ds in Hd.
    repeat (apply elem_of_cons in Hd as [->|Hd]);
      [..|by apply not_elem_of_nil in Hd];
      eapply (validate_decision_accepts Examples.exact_name_policy Examples.store0 0%nat);
      reflexivity. }
  split; [exact Hvalid|].
  destruct (C3_merge_adds_quantity Examples.exact_name_policy 1 Examples.store0 ds Hvalid)
    as (st' & rs & Hcommit & Hlength & Hrows & Hrecords & _).
  exists st', rs. split; [exact Hcommit|]. split; [exact Hlength|].
  assert (Htowels : Examples.store0 !! 7 = Some Examples.paper_towels) by reflexivity.
  assert (Hprinter : Examples.store0 !! 9 = Some Examples.old_printer) by reflexivity.
  split; [|split; [|split]].
  - destruct (Hrows 0%nat Examples.merge_towels 7 eq_refl eq_refl)
      as (r & r' & Hr & Hr' & Hquantity).
    exists r'. split; [exact Hr'|]. rewrite Hquantity.
    replace r with Examples.paper_towels by congruence. reflexivity.
  - destruct (Hrows 3%nat Examples.merge_towels 7 eq_refl eq_refl)
      as (r & r' & Hr & Hr' & Hquantity).
    exists r'. split; [exact Hr'|]. rewrite Hquantity.
    replace r with Examples.paper_towels by congruence. reflexivity.
  - destruct (Hrecords 7 Examples.paper_towels Htowels) as (r' & Hr' & Hquantity & _).
    exists r'. split; [exact Hr'|]. rewrite Hquantity. reflexivity.
  - destruct (Hrecords 9 Examples.old_printer Hprinter) as (r' & Hr' & Hquantity & _).
    exists r'. split; [exact Hr'|]. rewrite Hquantity. reflexivity.
Defined.

(** C6: in a batch that the commit accepts, every merge changes the
    quantity of its target and leaves the status of a [discontinued] or
    [ordered] record as it was; the status of a record on [in_stock] or
    [low_stock] comes out as one of these two. This holds for the record
    returned for each merge row and for every record of the store after
    the commit, however many rows of the batch merged into it. *)
Theorem C6_merge_keeps_discontinued
    (policy : Reconciler.Policy) (workspace : Z) (st : gmap Z Api.InventoryItemOut)
    (ds : list Reconciler.CommitDecision) :
  (∀ d, d ∈ ds → ¬ Reconciler.fails_validation policy st d) →
  ∃ st' rs,
    Reconciler.commit policy workspace st ds = (st', inr rs)
    ∧ (∀ (i : nat) d target,
         ds !! i = Some d → Batch.targets policy st target d = true →
         ∃ r r',
           st !! target = Some r
           ∧ rs !! i = Some r'
           ∧ Api.quantity r'
             = (Reconciler.c_quantity (Reconciler.candidate d)
                + (Batch.merged_quantity policy st (take i ds) target + Api.quantity r))%Qc
           ∧ match Api.status r with
             | Api.discontinued => Api.status r' = Api.discontinued
             | Api.ordered => Api.status r' = Api.ordered
             | Api.in_stock | Api.low_stock =>
                 Api.status r' = Api.in_stock ∨ Api.status r' = Api.low_stock
             end)
    ∧ (∀ k r,
         st !! k = Some r →
         ∃ r',
           st' !! k = Some r'
           ∧ Api.quantity r' = (Batch.merged_quantity policy st ds k + Api.quantity r)%Qc
           ∧ match Api.status r with
             | Api.discontinued => Api.status r' = Api.discontinued
             | Api.ordered => Api.status r' = Api.ordered
             | Api.in_stock | Api.low_stock =>
                 Api.status r' = Api.in_stock ∨ Api.status r' = Api.low_stock
             end).
Proof.
  intros Hvalid.
  destruct (commit_merges policy workspace st ds Hvalid)
    as (st' & rs & Hcommit & _ & Hrows & Hrecords & _).
  exists st', rs. split; [done|]. split.
  - intros i d target Hd Htarget.
    destruct (Hrows i d target Hd Htarget) as (r & r' & Hr & Hr' & Hquantity & Hstatus).
    by exists r, r'.
  - intros k r Hk.
    destruct (Hrecords k r Hk) as (r' & Hk' & Hquantity & Hstatus & _).
    by exists r'.
Qed.

(** C6 on the store of the examples, with a batch of three rows:
    printers merged into the discontinued record 9, paper towels merged
    into record 7, and printers merged into record 9 again. Record 9,
    which held one printer, holds nine after the commit and is still
    [discontinued], as it is in the records returned for the first and
    the last row. *)
Lemma C6_merge_keeps_discontinued_witness :
  let ds := [Examples.merge_printer; Examples.merge_towels; Examples.merge_printer] in
  (∀ d, d ∈ ds → ¬ Reconciler.fails_validation Examples.exact_name_policy Examples.store0 d)
  ∧ ∃ st' rs,
      Reconciler.commit Examples.exact_name_policy 1 Examples.store0 ds = (st', inr rs)
      ∧ (∃ r', rs !! 0%nat = Some r'
               ∧ Qcanon.this (Api.quantity r') = 5 # 1
               ∧ Api.status r' = Api.discontinued)
      ∧ (∃ r', rs !! 2%nat = Some r'
               ∧ Qcanon.this (Api.quantity r') = 9 # 1
               ∧ Api.status r' = Api.discontinued)
      ∧ (∃ r', st' !! 9 = Some r'
               ∧ Qcanon.this (Api.quantity r') = 9 # 1
               ∧ Api.status r' = Api.discontinued).
Proof.
  intros ds.
  assert (Hvalid : ∀ d, d ∈ ds
                        → ¬ Reconciler.fails_validation Examples.exact_name_policy
                              Examples.store0 d).
  { intros d Hd. unfold ds in Hd.
    repeat (apply elem_of_cons in Hd as [->|Hd]);
      [..|by apply not_elem_of_nil in Hd];
      eapply (validate_decision_accepts Examples.exact_name_policy Examples.store0 0%nat);
      reflexivity. }
  split; [exact Hvalid|].
  destruct (C6_merge_keeps_discontinued Examples.exact_name_policy 1 Examples.store0 ds Hvalid)
    as (st' & rs & Hcommit & Hrows & Hrecords).
  exists st', rs. split; [exact Hcommit|].
  assert (Hprinter : Examples.store0 !! 9 = Some Examples.old_printer) by reflexivity.
  split; [|split].
  - destruct (Hrows 0%nat Examples.merge_printer 9 eq_refl eq_refl)
      as (r & r' & Hr & Hr' & Hquantity & Hstatus).
    replace r with Examples.old_printer in * by congruence.
    exists r'. split; [exact Hr'|]. split; [rewrite Hquantity; reflexivity|exact Hstatus].
  - destruct (Hrows 2%nat Examples.merge_printer 9 eq_refl eq_refl)
      as (r & r' & Hr & Hr' & Hquantity & Hstatus).
    replace r with Examples.old_printer in * by congruence.
    exists r'. split; [exact Hr'|]. split; [rewrite Hquantity; reflexivity|exact Hstatus].
  - destruct (Hrecords 9 Examples.old_printer Hprinter) as (r' & Hr' & Hquantity & Hstatus).
    exists r'. split; [exact Hr'|]. split; [rewrite Hquantity; reflexivity|exact Hstatus].
Defined.

(** ** The merge target, from the review table to the store *)




(** The scenario of the specification: two cases of paper towels are
    recommended for an automatic merge into record 7, and the commit
    leaves the record at five cases and, five being the threshold, on
    [low_stock]. *)
Example paper_towels_scenario :
  Api.suggestions (Reconciler.suggestDuplicates Examples.exact_name_policy Examples.store0
                     [Examples.towels])
  = [ {| Api.import_index := 0; Api.import_name := "paper towels"; Api.import_unit := "case";
         Api.candidates := Reconciler.score Examples.exact_name_policy Examples.towels
                             (Reconciler.records Examples.store0);
         Api.recommended_action := Api.auto;
         Api.recommended_merge_item_id := Some 7 |} ]
  ∧ ∃ st' r',
      Reconciler.commit Examples.exact_name_policy 1 Examples.store0
        [ {| Reconciler.candidate := Examples.towels; Reconciler.action := Api.auto;
             Reconciler.merge_target := None |} ]
      = (st', inr [r'])
      ∧ Qcanon.this (Api.quantity r') = 5 # 1
      ∧ Api.status r' = Api.low_stock.
Proof. split; [reflexivity|]. eexists _, _. split; [reflexivity|]. split; reflexivity. Qed.

(** The batch in which the first row was set to [merge] with a
    suggestion for the second row only, committed by the reconciler
    against the store of the examples: the nitrile gloves of the first
    row are merged into record 7, the paper towels, which ends with the
    quantities of both rows added to its own. *)
Example misdirected_merge_reaches_the_store :
  ∃ st' gloves_merged towels_merged,
    Reconciler.commit Examples.exact_name_policy 1 Examples.store0
      (Wire.decision <$> ImportFlow.payloadItems ClientExamples.first_row_on_merge)
    = (st', inr [gloves_merged; towels_merged])
    ∧ Api.id gloves_merged = 7
    ∧ Qcanon.this (Api.quantity gloves_merged) = 7 # 1
    ∧ Api.id towels_merged = 7
    ∧ Qcanon.this (Api.quantity towels_merged) = 9 # 1.
Proof. eexists _, _, _. split; [reflexivity|]. repeat split. Qed.

(** * Further properties of the code *)

(** ** Pages and the pagination bar *)

Section PaginationMore.
Import Pagination TableView.
Context {A : Type}.
Implicit Types (items : list A) (page pageSize : Z).

Lemma Math_ceil_div_lower a b : 0 < b → (Math_ceil_div a b - 1) * b < a.
Proof.
  intros Hb. unfold Math_ceil_div.
  pose proof (Z.div_mod (- a) b) as Hdiv.
  pose proof (Z.mod_pos_bound (- a) b Hb). nia.
Qed.

(** The last page is the only one that may be short, and it is not empty. *)
Lemma getTotalPages_tight items pageSize :
  items ≠ [] →
  (getTotalPages (Z.of_nat (length items)) pageSize - 1) * Z.max 1 pageSize
  < Z.of_nat (length items)
  ≤ getTotalPages (Z.of_nat (length items)) pageSize * Z.max 1 pageSize.
Proof.
  intros Hitems. assert (0 < length items)%nat by (destruct items; [done|cbn; lia]).
  pose proof (Math_ceil_div_lower (Z.of_nat (length items)) (Z.max 1 pageSize)).
  pose proof (Math_ceil_div_upper (Z.of_nat (length items)) (Z.max 1 pageSize)).
  unfold getTotalPages. split; nia.
Qed.

Lemma paginateItems_length_exact items page pageSize :
  Z.of_nat (length (paginateItems items page pageSize))
  = Z.max 0 (Z.min (Z.max 1 pageSize)
               (Z.of_nat (length items) - (Z.max 1 page - 1) * Z.max 1 pageSize)).
Proof. rewrite paginateItems_window, length_take, length_drop. nia. Qed.

Lemma paginateItems_lookup items page pageSize (k : nat) :
  paginateItems items page pageSize !! k
  = if decide (Z.of_nat k < Z.max 1 pageSize)
    then items !! (Z.to_nat ((Z.max 1 page - 1) * Z.max 1 pageSize) + k)%nat
    else None.
Proof.
  rewrite paginateItems_window. case_decide.
  - rewrite lookup_take_lt by lia. by rewrite lookup_drop.
  - apply lookup_take_ge. lia.
Qed.

Lemma paginateItems_insert items page pageSize (k : nat) x :
  Z.of_nat k < Z.max 1 pageSize →
  paginateItems (<[(Z.to_nat ((Z.max 1 page - 1) * Z.max 1 pageSize) + k)%nat := x]> items)
    page pageSize
  = <[k := x]> (paginateItems items page pageSize).
Proof.
  intros Hk. rewrite !paginateItems_window.
  rewrite drop_insert_ge by lia. rewrite take_insert_lt by lia.
  f_equal. lia.
Qed.

End PaginationMore.

(** X1: Every page from 1 to [getTotalPages] of a list that is not empty
    holds at least one item; every page before the last holds exactly
    [max(1, pageSize)] items. *)
Theorem pages_full_but_last {A} (items : list A) (page pageSize : Z) :
  items ≠ [] →
  1 ≤ page ≤ Pagination.getTotalPages (Z.of_nat (length items)) pageSize →
  1 ≤ Z.of_nat (length (Pagination.paginateItems items page pageSize)) ≤ Z.max 1 pageSize
  ∧ (page < Pagination.getTotalPages (Z.of_nat (length items)) pageSize →
     Z.of_nat (length (Pagination.paginateItems items page pageSize)) = Z.max 1 pageSize).
Proof.
  intros Hitems Hpage. pose proof (getTotalPages_tight items pageSize Hitems).
  rewrite paginateItems_length_exact. split; [split|intros Hnotlast]; nia.
Qed.

Lemma pages_full_but_last_witness :
  ["a"; "b"; "c"; "d"; "e"] ≠ []
  ∧ 1 ≤ 3 ≤ Pagination.getTotalPages (Z.of_nat (length ["a"; "b"; "c"; "d"; "e"])) 2
  ∧ Pagination.paginateItems ["a"; "b"; "c"; "d"; "e"] 3 2 = ["e"]
  ∧ 1 ≤ Z.of_nat (length (Pagination.paginateItems ["a"; "b"; "c"; "d"; "e"] 3 2)) ≤ Z.max 1 2.
Proof.
  assert (Hne : ["a"; "b"; "c"; "d"; "e"] ≠ []) by discriminate.
  assert (Hpage : 1 ≤ 3 ≤ Pagination.getTotalPages
                            (Z.of_nat (length ["a"; "b"; "c"; "d"; "e"])) 2)
    by (vm_compute; split; discriminate).
  split; [exact Hne|]. split; [exact Hpage|]. split; [reflexivity|].
  exact (proj1 (pages_full_but_last ["a"; "b"; "c"; "d"; "e"] 3 2 Hne Hpage)).
Defined.

(** X2: A page number below 1 shows the first page, and a page number past
    [getTotalPages] shows nothing. *)
Theorem pages_out_of_range {A} (items : list A) (page pageSize : Z) :
  (page ≤ 1 →
   Pagination.paginateItems items page pageSize = Pagination.paginateItems items 1 pageSize)
  ∧ (Pagination.getTotalPages (Z.of_nat (length items)) pageSize < page →
     Pagination.paginateItems items page pageSize = []).
Proof.
  split.
  - intros Hpage. rewrite !paginateItems_window. do 2 f_equal. lia.
  - intros Hpage. apply length_zero_iff_nil.
    pose proof (Math_ceil_div_upper (Z.of_nat (length items)) (Z.max 1 pageSize)).
    pose proof (paginateItems_length_exact items page pageSize) as Hlength.
    unfold Pagination.getTotalPages in Hpage. nia.
Qed.

Lemma pages_out_of_range_witness :
  (-4 ≤ 1 ∧ Pagination.paginateItems ["a"; "b"; "c"] (-4) 2 = ["a"; "b"])
  ∧ (Pagination.getTotalPages (Z.of_nat (length ["a"; "b"; "c"])) 2 < 3
     ∧ Pagination.paginateItems ["a"; "b"; "c"] 3 2 = []).
Proof.
  split.
  - split; [lia|].
    rewrite (proj1 (pages_out_of_range ["a"; "b"; "c"] (-4) 2)) by lia. reflexivity.
  - assert (H : Pagination.getTotalPages (Z.of_nat (length ["a"; "b"; "c"])) 2 < 3)
      by reflexivity.
    split; [exact H|]. exact (proj2 (pages_out_of_range ["a"; "b"; "c"] 3 2) H).
Defined.

(** X3: Once the page effect has clamped the page number to the number of
    pages, a table that has rows never shows an empty page, whatever the
    page number and the page size were. *)
Theorem clamped_page_is_not_empty {A} (items : list A) (page pageSize : Z) :
  items ≠ [] →
  Pagination.paginateItems items
    (TableView.clampPage page (Pagination.getTotalPages (Z.of_nat (length items)) pageSize))
    pageSize ≠ [].
Proof.
  intros Hitems Hempty. apply (f_equal length) in Hempty. cbn in Hempty.
  pose proof (getTotalPages_tight items pageSize Hitems).
  pose proof (paginateItems_length_exact items
                (TableView.clampPage page
                   (Pagination.getTotalPages (Z.of_nat (length items)) pageSize)) pageSize)
    as Hlength.
  rewrite Hempty in Hlength. unfold TableView.clampPage in Hlength.
  pose proof (getTotalPages_pos (Z.of_nat (length items)) pageSize).
  set (total := Pagination.getTotalPages (Z.of_nat (length items)) pageSize) in *.
  set (size := Z.max 1 pageSize) in *. assert (1 ≤ size) by (unfold size; lia).
  destruct (Z.ltb_spec total page).
  - replace (Z.max 1 total) with total in Hlength by lia. lia.
  - assert ((Z.max 1 page - 1) * size ≤ (total - 1) * size) by nia. lia.
Qed.

Lemma clamped_page_is_not_empty_witness :
  ["a"; "b"; "c"] ≠ []
  ∧ Pagination.paginateItems ["a"; "b"; "c"] 9 2 = []
  ∧ Pagination.paginateItems ["a"; "b"; "c"]
      (TableView.clampPage 9 (Pagination.getTotalPages (Z.of_nat (length ["a"; "b"; "c"])) 2))
      2 ≠ [].
Proof.
  assert (Hne : ["a"; "b"; "c"] ≠ []) by discriminate.
  split; [exact Hne|]. split; [reflexivity|].
  exact (clamped_page_is_not_empty ["a"; "b"; "c"] 9 2 Hne).
Defined.

(** X4: For a page size of at least 1 the label of the pagination bar
    describes the page that is shown: the shown page number lies between
    1 and the number of pages, an empty table is labelled 0-0, and
    otherwise the rows of the page are the rows [start .. end] of the
    table, counted from 1. An enabled button asks for a page inside the
    range. *)
Theorem pagination_label_matches_page {A} (items : list A) (currentPage pageSize : Z) :
  1 ≤ pageSize →
  let view := TableView.TablePagination
                {| TableView.totalItems := Z.of_nat (length items);
                   TableView.currentPage := currentPage;
                   TableView.pageSize := pageSize |} in
  1 ≤ TableView.safePage view ≤ TableView.totalPages view
  ∧ (if decide (items = [])
     then TableView.start view = 0 ∧ TableView.end_ view = 0
     else 1 ≤ TableView.start view ≤ TableView.end_ view
          ∧ TableView.end_ view ≤ Z.of_nat (length items))
  ∧ Pagination.paginateItems items (TableView.safePage view) pageSize
    = take (Z.to_nat (TableView.end_ view - TableView.start view + 1))
        (drop (Z.to_nat (TableView.start view - 1)) items)
  ∧ (TableView.prevDisabled view = false → 1 ≤ TableView.safePage view - 1)
  ∧ (TableView.nextDisabled view = false →
     TableView.safePage view + 1 ≤ TableView.totalPages view).
Proof.
  intros Hsize view.
  set (total := Pagination.getTotalPages (Z.of_nat (length items)) pageSize).
  assert (Htotal : 1 ≤ total) by apply getTotalPages_pos.
  assert (Hsafe : 1 ≤ TableView.safePage view ≤ total) by (cbn; fold total; lia).
  split; [exact Hsafe|].
  split; [|split; [|split]].
  - case_decide as Hitems.
    + subst items. by cbn.
    + pose proof (getTotalPages_tight items pageSize Hitems) as Htight. fold total in Htight.
      assert (0 < length items)%nat by (destruct items; [done|cbn; lia]).
      cbn. fold total. destruct (Z.eqb_spec (Z.of_nat (length items)) 0); [lia|]. nia.
  - rewrite paginateItems_window.
    destruct (decide (items = [])) as [->|Hitems]; [by rewrite !drop_nil, !take_nil|].
    pose proof (getTotalPages_tight items pageSize Hitems) as Htight. fold total in Htight.
    assert (0 < length items)%nat by (destruct items; [done|cbn; lia]).
    cbn. fold total. destruct (Z.eqb_spec (Z.of_nat (length items)) 0); [lia|].
    set (safe := Z.min (Z.max 1 currentPage) total) in *.
    assert (1 ≤ safe ≤ total) by (unfold safe; lia).
    replace (Z.to_nat ((safe - 1) * pageSize + 1 - 1))
      with (Z.to_nat ((Z.max 1 safe - 1) * Z.max 1 pageSize)) by (f_equal; nia).
    destruct (decide (safe * pageSize ≤ Z.of_nat (length items))).
    + f_equal. nia.
    + rewrite !take_ge; [done| |]; rewrite length_drop; nia.
  - cbn. fold total. intros Hprev%Z.leb_gt. lia.
  - cbn. fold total. intros Hnext%Z.leb_gt. lia.
Qed.

Lemma pagination_label_matches_page_witness :
  let view := TableView.TablePagination
                {| TableView.totalItems := 5; TableView.currentPage := 7;
                   TableView.pageSize := 2 |} in
  1 ≤ 2
  ∧ (TableView.safePage view, TableView.start view, TableView.end_ view) = (3, 5, 5)
  ∧ Pagination.paginateItems ["a"; "b"; "c"; "d"; "e"] (TableView.safePage view) 2
    = take (Z.to_nat (TableView.end_ view - TableView.start view + 1))
        (drop (Z.to_nat (TableView.start view - 1)) ["a"; "b"; "c"; "d"; "e"]).
Proof.
  intros view. split; [lia|]. split; [reflexivity|].
  assert (Hsize : 1 ≤ 2) by lia.
  exact (proj1 (proj2 (proj2
           (pagination_label_matches_page ["a"; "b"; "c"; "d"; "e"] 7 2 Hsize)))).
Defined.

(** ** The review table *)

Section ReviewTableFacts.
Import Js Api Client ImportFlow ImportInvariant.

Lemma handleEditableRowChange_rows index patch st :
  editableRows (handleEditableRowChange index patch st)
  = match editableRows st !! index with
    | Some row => <[index := patch row]> (editableRows st)
    | None => editableRows st
    end.
Proof.
  cbn. apply list_eq. intros j. rewrite list_lookup_imap.
  destruct (editableRows st !! index) as [row|] eqn:Hrow.
  - destruct (decide (j = index)) as [->|Hj].
    + rewrite list_lookup_insert_eq by (by eapply lookup_lt_Some).
      rewrite Hrow. cbn. repeat case_decide; congruence.
    + rewrite list_lookup_insert_ne by done.
      destruct (editableRows st !! j); [|done]. cbn. repeat case_decide; congruence.
  - destruct (editableRows st !! j) eqn:Hj; [|done]. cbn.
    repeat case_decide; congruence.
Qed.

Lemma suggestionsByIndex_None suggestions index :
  suggestionsByIndex suggestions !! index = None
  ↔ ∀ s, s ∈ suggestions → import_index s ≠ index.
Proof.
  induction suggestions as [|entry suggestions IH] using rev_ind.
  { split; [by intros _ s Hs%not_elem_of_nil|done]. }
  rewrite suggestionsByIndex_snoc. rewrite lookup_insert_None, IH. split.
  - intros [Hrest Hentry] s [Hs|Hs%list_elem_of_singleton]%elem_of_app; [auto|by subst].
  - intros Hall. split.
    + intros s Hs. apply Hall, elem_of_app. by left.
    + apply Hall, elem_of_app. right. by apply list_elem_of_singleton.
Qed.

(** [Map.set] keeps the last entry of a key. *)
Lemma suggestionsByIndex_last before s after :
  Forall (λ other, import_index other ≠ import_index s) after →
  suggestionsByIndex (before ++ s :: after) !! import_index s = Some s.
Proof.
  induction after as [|entry after IH] using rev_ind; intros Hafter.
  - rewrite suggestionsByIndex_snoc. apply lookup_insert_eq.
  - apply Forall_app in Hafter as [Hafter Hentry].
    apply Forall_cons in Hentry as [Hentry _].
    rewrite app_comm_cons, app_assoc, suggestionsByIndex_snoc.
    rewrite lookup_insert_ne by exact Hentry. by apply IH.
Qed.

Lemma payloadItems_length st : length (payloadItems st) = length (editableRows st).
Proof. unfold payloadItems. apply length_imap. Qed.

Lemma mutate_of_throw {World}
    (fetch : Request (list CommitItem) → World → Completion Response * World)
    session st w e w' :
  commitImport_mutationFn fetch session st w = (Throw e, w') →
  commitImport_mutate fetch session st w = (commitImport_onError e st, w').
Proof. unfold commitImport_mutate. by intros ->. Qed.

End ReviewTableFacts.

(** X5: The index that the review table passes to [handleEditableRowChange]
    for a row it shows is the index of that row among all rows, for a
    page and a page size of at least 1. The change replaces that row by
    the patched one, among all rows and on the page shown, and leaves
    every other row and the suggestions as they were. *)
Theorem edit_reaches_the_displayed_row (st : ImportFlow.State) (page pageSize : Z)
    (rowOffset : nat) (row : ImportFlow.EditableImportRow)
    (patch : ImportFlow.EditableImportRow → ImportFlow.EditableImportRow) :
  1 ≤ page → 1 ≤ pageSize →
  Pagination.paginateItems (ImportFlow.editableRows st) page pageSize !! rowOffset = Some row →
  let index := Z.to_nat (TableView.rowIndex page pageSize rowOffset) in
  let st' := ImportFlow.handleEditableRowChange index patch st in
  0 ≤ TableView.rowIndex page pageSize rowOffset
  ∧ ImportFlow.editableRows st !! index = Some row
  ∧ ImportFlow.editableRows st' = <[index := patch row]> (ImportFlow.editableRows st)
  ∧ Pagination.paginateItems (ImportFlow.editableRows st') page pageSize
    = <[rowOffset := patch row]>
        (Pagination.paginateItems (ImportFlow.editableRows st) page pageSize)
  ∧ ImportFlow.duplicateSuggestions st' = ImportFlow.duplicateSuggestions st.
Proof.
  intros Hpage Hsize Hrow index st'.
  unfold TableView.rowIndex, TableView.pageStartIndex in *.
  assert (Hindex : index
                   = (Z.to_nat ((Z.max 1 page - 1) * Z.max 1 pageSize) + rowOffset)%nat).
  { unfold index. rewrite !Z.max_r by lia. nia. }
  rewrite paginateItems_lookup in Hrow. case_decide as Hoffset; [|done].
  rewrite <-Hindex in Hrow.
  split; [nia|]. split; [done|].
  assert (Hrows : ImportFlow.editableRows st'
                  = <[index := patch row]> (ImportFlow.editableRows st)).
  { unfold st'. by rewrite handleEditableRowChange_rows, Hrow. }
  split; [done|]. split; [|done].
  rewrite Hrows, Hindex. by apply paginateItems_insert.
Qed.

Lemma edit_reaches_the_displayed_row_witness :
  let st := ClientExamples.parsed_state in
  1 ≤ 2 ∧ 1 ≤ 1
  ∧ (∃ row,
       Pagination.paginateItems (ImportFlow.editableRows st) 2 1 !! 0%nat = Some row
       ∧ ImportFlow.row_name row = "paper towels"%string
       ∧ ImportFlow.editableRows st !! Z.to_nat (TableView.rowIndex 2 1 0) = Some row).
Proof.
  intros st. split; [lia|]. split; [lia|].
  eexists. split; [reflexivity|]. split; [reflexivity|].
  refine (proj1 (proj2 (edit_reaches_the_displayed_row st 2 1 0 _
                          (ImportFlow.with_duplicate_action Api.create_new) _ _ eq_refl)));
    lia.
Defined.

(** X6: A row whose index no suggestion of the response carries starts on
    [auto] with no merge target and the text "No close matches"; its
    name, price, quantity (1 when missing), unit ("units" when missing)
    and category come from the parsed item. *)
Theorem row_without_suggestion_starts_on_auto (Number_toString : Qc → string)
    (parsed : Api.ReceiptExtraction) (duplicates : Api.InventoryDuplicateSuggestionResponse)
    (st : ImportFlow.State) (i : nat) (item : Api.ReceiptItem) :
  Api.items parsed !! i = Some item →
  (∀ s, s ∈ Api.suggestions duplicates → Api.import_index s ≠ Z.of_nat i) →
  ∃ row,
    ImportFlow.editableRows (ImportFlow.parseImport_onSuccess Number_toString parsed duplicates st)
      !! i = Some row
    ∧ ImportFlow.duplicate_action row = Api.auto
    ∧ ImportFlow.merge_item_id row = None
    ∧ ImportFlow.duplicate_candidates row = "No close matches"%string
    ∧ ImportFlow.row_name row = Api.item_name item
    ∧ ImportFlow.row_price row = Api.item_price item
    ∧ ImportFlow.row_quantity row = default 1%Qc (Api.item_quantity item)
    ∧ ImportFlow.row_unit row = default "units"%string (Api.item_unit item)
    ∧ ImportFlow.row_category row = default EmptyString (Api.item_category item).
Proof.
  intros Hitem Hnone. eexists. split; [by apply parseImport_row|].
  apply suggestionsByIndex_None in Hnone.
  unfold ImportFlow.initialRow. rewrite Hnone. by cbn.
Qed.

Lemma row_without_suggestion_starts_on_auto_witness :
  Api.items ClientExamples.receipt !! 0%nat = Some ClientExamples.gloves
  ∧ (∀ s, s ∈ [ClientExamples.towels_suggestion] → Api.import_index s ≠ Z.of_nat 0)
  ∧ ∃ row,
      ImportFlow.editableRows ClientExamples.parsed_state !! 0%nat = Some row
      ∧ ImportFlow.duplicate_action row = Api.auto
      ∧ ImportFlow.merge_item_id row = None.
Proof.
  assert (Hnone : ∀ s, s ∈ [ClientExamples.towels_suggestion] →
                       Api.import_index s ≠ Z.of_nat 0).
  { intros s Hs%list_elem_of_singleton. subst s. discriminate. }
  split; [reflexivity|]. split; [exact Hnone|].
  destruct (row_without_suggestion_starts_on_auto ClientExamples.ratio_text
              ClientExamples.receipt {| Api.suggestions := [ClientExamples.towels_suggestion] |}
              ImportFlow.initialState 0 ClientExamples.gloves eq_refl Hnone)
    as (row & Hrow & Haction & Htarget & _).
  exists row. split; [exact Hrow|]. split; [exact Haction|exact Htarget].
Defined.

(** X7: Whatever the order of the suggestions in the response, and when
    several carry the same index, the row at position [i] starts from the
    last suggestion that carries index [i]. *)
Theorem row_starts_from_last_suggestion (Number_toString : Qc → string)
    (parsed : Api.ReceiptExtraction) (st : ImportFlow.State) (i : nat) (item : Api.ReceiptItem)
    (before after : list Api.DuplicateSuggestionForImportItem)
    (s : Api.DuplicateSuggestionForImportItem) :
  Api.items parsed !! i = Some item →
  Api.import_index s = Z.of_nat i →
  Forall (λ other, Api.import_index other ≠ Z.of_nat i) after →
  ∃ row,
    ImportFlow.editableRows
      (ImportFlow.parseImport_onSuccess Number_toString parsed
         {| Api.suggestions := before ++ s :: after |} st) !! i = Some row
    ∧ ImportFlow.duplicate_action row = Api.recommended_action s
    ∧ ImportFlow.merge_item_id row = Api.recommended_merge_item_id s.
Proof.
  intros Hitem Hindex Hafter. eexists. split; [by apply parseImport_row|].
  unfold ImportFlow.initialRow. cbn [Api.suggestions].
  rewrite <-Hindex in *. rewrite suggestionsByIndex_last by done. by cbn.
Qed.

Lemma row_starts_from_last_suggestion_witness :
  let stale := {| Api.import_index := 1; Api.import_name := "paper towels";
                  Api.import_unit := "case"; Api.candidates := [];
                  Api.recommended_action := Api.review;
                  Api.recommended_merge_item_id := None |} in
  Api.items ClientExamples.receipt !! 1%nat = Some ClientExamples.paper_towels_item
  ∧ Api.import_index ClientExamples.towels_suggestion = Z.of_nat 1
  ∧ Forall (λ other, Api.import_index other ≠ Z.of_nat 1) []
  ∧ ∃ row,
      ImportFlow.editableRows
        (ImportFlow.parseImport_onSuccess ClientExamples.ratio_text ClientExamples.receipt
           {| Api.suggestions := [stale] ++ ClientExamples.towels_suggestion :: [] |}
           ImportFlow.initialState) !! 1%nat = Some row
      ∧ ImportFlow.duplicate_action row = Api.merge
      ∧ ImportFlow.merge_item_id row = Some 7.
Proof.
  intros stale. split; [reflexivity|]. split; [reflexivity|]. split; [constructor|].
  exact (row_starts_from_last_suggestion ClientExamples.ratio_text ClientExamples.receipt
           ImportFlow.initialState 1 ClientExamples.paper_towels_item [stale] []
           ClientExamples.towels_suggestion eq_refl eq_refl (Forall_nil_2 _)).
Defined.

(** ** The commit request *)

Section CommitRequestFacts.
Import Js Api Client ImportFlow ImportInvariant CommitRequest.

Lemma commitImport_sends {World}
    (fetch : Request (list CommitItem) → World → Completion Response * World)
    session st w :
  existsb is_review (editableRows st) = false →
  commitImport_mutationFn fetch session st w
  = (let '(response, w') := fetch (commitRequest session st) w in
     (response ≫= handleResponse, w')).
Proof. intros Hgate. unfold commitImport_mutationFn. by rewrite Hgate. Qed.

Lemma payloadItems_no_review st :
  existsb is_review (editableRows st) = false →
  Forall (λ item, commit_duplicate_action item ≠ review) (payloadItems st).
Proof.
  intros Hgate. apply Forall_lookup. intros i item.
  rewrite payloadItems_lookup. destruct (editableRows st !! i) as [row|] eqn:Hrow; [|done].
  intros [= <-]. cbn. intros Hreview.
  assert (existsb is_review (editableRows st) = true); [|congruence].
  apply existsb_is_review. exists row. split; [by eapply list_elem_of_lookup_2|done].
Qed.

Lemma with_duplicate_action_keeps_target action :
  keeps_target (with_duplicate_action action).
Proof. by intros row. Qed.

Lemma parseImport_targets Number_toString parsed duplicates st :
  targets_follow_suggestions (parseImport_onSuccess Number_toString parsed duplicates st).
Proof.
  intros i row. cbn. rewrite list_lookup_imap.
  destruct (items parsed !! i); [|done]. by intros [= <-].
Qed.

Lemma handleEditableRowChange_targets index patch st :
  keeps_target patch →
  targets_follow_suggestions st →
  targets_follow_suggestions (handleEditableRowChange index patch st).
Proof.
  intros Hpatch Hst i row. rewrite handleEditableRowChange_rows.
  change (duplicateSuggestions (handleEditableRowChange index patch st))
    with (duplicateSuggestions st).
  destruct (editableRows st !! index) as [old|] eqn:Hold; [|by apply Hst].
  destruct (decide (i = index)) as [->|Hi].
  - rewrite list_lookup_insert_eq by (by eapply lookup_lt_Some).
    intros [= <-]. rewrite Hpatch. by apply Hst.
  - rewrite list_lookup_insert_ne by done. by apply Hst.
Qed.

End CommitRequestFacts.

(** X8: Whatever the import state and the network, the commit sends at most
    one request. When a row is on [review] it sends none and the world
    is as it was; otherwise the one request is a POST to the commit path
    with a JSON body of one item per row, none of them on [review]. *)
Theorem commit_sends_at_most_one_request {World}
    (fetch : Client.Request (list ImportFlow.CommitItem) → World
             → Js.Completion Client.Response * World)
    (session : ImportFlow.Session) (st : ImportFlow.State) (w : World)
    (log : list (Client.Request (list ImportFlow.CommitItem))) :
  let after := (ImportFlow.commitImport_mutationFn (CommitRequest.recording fetch) session st
                  (w, log)).2 in
  (after = (w, log)
   ∧ ∃ row, row ∈ ImportFlow.editableRows st ∧ ImportFlow.duplicate_action row = Api.review)
  ∨ (∃ request items,
       after.2 = request :: log
       ∧ after.1 = (fetch request w).2
       ∧ Client.path request = "/inventory/import/commit"%string
       ∧ Client.method request = Client.POST
       ∧ ("Content-Type"%string, "application/json"%string) ∈ Client.headers request
       ∧ Client.request_body request = Some items
       ∧ length items = length (ImportFlow.editableRows st)
       ∧ Forall (λ item, ImportFlow.commit_duplicate_action item ≠ Api.review) items).
Proof.
  intros after.
  destruct (existsb ImportFlow.is_review (ImportFlow.editableRows st)) eqn:Hgate.
  - left. split; [|by apply existsb_is_review].
    unfold after, ImportFlow.commitImport_mutationFn. by rewrite Hgate.
  - right. exists (CommitRequest.commitRequest session st), (ImportFlow.payloadItems st).
    unfold after. rewrite commitImport_sends by done.
    unfold CommitRequest.recording.
    destruct (fetch (CommitRequest.commitRequest session st) w) as [response w'] eqn:Hfetch.
    cbn. repeat split; try done.
    + rewrite !elem_of_app. right. right. apply list_elem_of_here.
    + apply payloadItems_length.
    + by apply payloadItems_no_review.
Qed.

(** X9: When the API answers the commit with a status outside 2xx and a JSON
    body, the commit fails with an [ApiError], the error toast shows the
    normalized detail of that body, and the review table is kept as it
    was: rows, suggestions, parsed receipt, import text and file. *)
Theorem rejected_commit_keeps_the_review_table {World}
    (fetch : Client.Request (list ImportFlow.CommitItem) → World
             → Js.Completion Client.Response * World)
    (session : ImportFlow.Session) (st : ImportFlow.State) (w w' : World)
    (response : Client.Response) (b : Client.Body) (payload : Js.Value) (message : string) :
  existsb ImportFlow.is_review (ImportFlow.editableRows st) = false →
  fetch (CommitRequest.commitRequest session st) w = (Js.Return response, w') →
  Client.ok response = false →
  Client.bodyUsed response = false →
  Client.body response = Some b →
  Client.json b = Some payload →
  Utils.normalizeErrorDetail (Js.nullish (Js.Get_optional payload "detail") payload)
  = Js.Return message →
  ImportFlow.commitImport_mutationFn fetch session st w
  = (Js.Throw (Js.ApiError (Client.status response) message), w')
  ∧ ∃ st',
      ImportFlow.commitImport_mutate fetch session st w = (st', w')
      ∧ ImportFlow.toasts st' = ImportFlow.toast_error message :: ImportFlow.toasts st
      ∧ ImportFlow.editableRows st' = ImportFlow.editableRows st
      ∧ ImportFlow.duplicateSuggestions st' = ImportFlow.duplicateSuggestions st
      ∧ ImportFlow.parsedImport st' = ImportFlow.parsedImport st
      ∧ ImportFlow.importText st' = ImportFlow.importText st
      ∧ ImportFlow.importFile st' = ImportFlow.importFile st.
Proof.
  intros Hgate Hfetch Hok Hused Hbody Hjson Hmessage.
  assert (Hthrow : ImportFlow.commitImport_mutationFn fetch session st w
                   = (Js.Throw (Js.ApiError (Client.status response) message), w')).
  { rewrite commitImport_sends, Hfetch by done. cbn.
    by erewrite handleResponse_json_detail. }
  split; [exact Hthrow|]. eexists. split; [by apply mutate_of_throw|]. by cbn.
Qed.

Lemma rejected_commit_keeps_the_review_table_witness :
  let st := ClientExamples.first_row_on_merge in
  existsb ImportFlow.is_review (ImportFlow.editableRows st) = false
  ∧ Client.ok ClientExamples.unprocessable = false
  ∧ ∃ st' log,
      ImportFlow.commitImport_mutate (ClientExamples.answering ClientExamples.unprocessable)
        ClientExamples.session st [] = (st', log)
      ∧ ImportFlow.toasts st'
        = ImportFlow.toast_error "items.0.quantity: Input should be a valid number"
            :: ImportFlow.toasts st
      ∧ ImportFlow.editableRows st' = ImportFlow.editableRows st.
Proof.
  intros st.
  assert (Hgate : existsb ImportFlow.is_review (ImportFlow.editableRows st) = false)
    by reflexivity.
  split; [exact Hgate|]. split; [reflexivity|].
  destruct (rejected_commit_keeps_the_review_table
              (ClientExamples.answering ClientExamples.unprocessable)
              ClientExamples.session st [] _ ClientExamples.unprocessable _ _
              "items.0.quantity: Input should be a valid number"
              Hgate eq_refl eq_refl eq_refl eq_refl eq_refl eq_refl)
    as (_ & st' & Hmutate & Htoasts & Hrows & _).
  eexists st', _. split; [exact Hmutate|]. split; [exact Htoasts|exact Hrows].
Defined.

(** X10: The rows keep the merge targets that the suggestions recommend for
    their indexes: [parseImport] sets them so, and no change of the
    review table that leaves the target alone (as all of them do) breaks
    it, at any index, in range or not. *)
Theorem targets_follow_suggestions_is_kept (Number_toString : Qc → string)
    (parsed : Api.ReceiptExtraction) (duplicates : Api.InventoryDuplicateSuggestionResponse)
    (st : ImportFlow.State) (index : nat)
    (patch : ImportFlow.EditableImportRow → ImportFlow.EditableImportRow) :
  ImportInvariant.targets_follow_suggestions
    (ImportFlow.parseImport_onSuccess Number_toString parsed duplicates st)
  ∧ (ImportInvariant.keeps_target patch →
     ImportInvariant.targets_follow_suggestions st →
     ImportInvariant.targets_follow_suggestions
       (ImportFlow.handleEditableRowChange index patch st)).
Proof.
  split; [apply parseImport_targets|apply handleEditableRowChange_targets].
Qed.

Lemma targets_follow_suggestions_is_kept_witness :
  ImportInvariant.keeps_target (ImportFlow.with_duplicate_action Api.merge)
  ∧ ImportInvariant.targets_follow_suggestions ClientExamples.parsed_state
  ∧ ImportInvariant.targets_follow_suggestions ClientExamples.first_row_on_merge.
Proof.
  pose proof (proj1 (targets_follow_suggestions_is_kept ClientExamples.ratio_text
                       ClientExamples.receipt
                       {| Api.suggestions := [ClientExamples.towels_suggestion] |}
                       ImportFlow.initialState 0 (ImportFlow.with_duplicate_action Api.merge)))
    as Hparsed.
  split; [apply with_duplicate_action_keeps_target|]. split; [exact Hparsed|].
  exact (proj2 (targets_follow_suggestions_is_kept ClientExamples.ratio_text
                  ClientExamples.receipt
                  {| Api.suggestions := [ClientExamples.towels_suggestion] |}
                  ClientExamples.parsed_state 0 (ImportFlow.with_duplicate_action Api.merge))
           (with_duplicate_action_keeps_target Api.merge) Hparsed).
Defined.

(** X11: A row that holds the target recommended for its index is submitted
    with that target, whatever its action, when the suggestion stored at
    its position is the one recorded for its index: on such a row the
    fallback of the commit changes nothing. *)
Theorem fallback_changes_nothing_when_aligned (st : ImportFlow.State) (i : nat)
    (row : ImportFlow.EditableImportRow) :
  ImportInvariant.targets_follow_suggestions st →
  ImportFlow.editableRows st !! i = Some row →
  ImportFlow.duplicateSuggestions st !! i
  = ImportFlow.suggestionsByIndex (ImportFlow.duplicateSuggestions st) !! Z.of_nat i →
  ∃ item,
    ImportFlow.payloadItems st !! i = Some item
    ∧ ImportFlow.commit_merge_item_id item = ImportFlow.merge_item_id row.
Proof.
  intros Hst Hrow Haligned. eexists. split; [by rewrite payloadItems_lookup, Hrow|].
  cbn. destruct (bool_decide _ && _); [|done].
  rewrite Haligned. symmetry. by apply Hst.
Qed.

Lemma fallback_changes_nothing_when_aligned_witness :
  let st := MoreClientExamples.aligned_state in
  ImportInvariant.targets_follow_suggestions st
  ∧ (∃ row, ImportFlow.editableRows st !! 0%nat = Some row
            ∧ ImportFlow.duplicate_action row = Api.merge
            ∧ ImportFlow.merge_item_id row = None)
  ∧ ImportFlow.duplicateSuggestions st !! 0%nat
    = ImportFlow.suggestionsByIndex (ImportFlow.duplicateSuggestions st) !! Z.of_nat 0
  ∧ ∃ item, ImportFlow.payloadItems st !! 0%nat = Some item
            ∧ ImportFlow.commit_merge_item_id item = None.
Proof.
  intros st.
  assert (Hst : ImportInvariant.targets_follow_suggestions st).
  { apply handleEditableRowChange_targets;
      [apply with_duplicate_action_keeps_target|apply parseImport_targets]. }
  split; [exact Hst|]. split; [eexists; split; [reflexivity|split; reflexivity]|].
  split; [reflexivity|].
  destruct (fallback_changes_nothing_when_aligned st 0 _ Hst eq_refl eq_refl)
    as (item & Hitem & Htarget).
  exists item. split; [exact Hitem|exact Htarget].
Defined.

(** ** Responses *)

Section ResponseFacts.
Import Js Utils Client ValidationErrors.

Lemma handleResponse_ok_returns response :
  ok response = true → bodyUsed response = false →
  ∃ v, handleResponse response = Return v.
Proof.
  intros Hok Hused. unfold handleResponse, Response_text, unusable, consume.
  rewrite Hok, Hused. cbn [negb].
  destruct (status response =? 204); [by eexists|].
  destruct (body response) as [b|] eqn:Hbody; cbn.
  - destruct (String.eqb (text b) EmptyString); [by eexists|].
    rewrite ?Hbody. cbn. destruct (json b); by eexists.
  - by eexists.
Qed.




End ResponseFacts.

(** X12: A response whose body has not been read resolves the request when
    its status is in the 2xx range and fails it otherwise: [apiRequest]
    returns a value exactly for the statuses 200 to 299. *)
Theorem request_resolves_exactly_on_2xx (response : Client.Response) :
  Client.bodyUsed response = false →
  (200 ≤ Client.status response ≤ 299 ↔ ∃ v, Client.handleResponse response = Js.Return v).
Proof.
  intros Hused. split.
  - intros Hstatus. apply handleResponse_ok_returns; [|done].
    unfold Client.ok. apply andb_true_intro. split; apply Z.leb_le; lia.
  - intros [v Hv]. destruct (Client.ok response) eqn:Hok.
    + unfold Client.ok in Hok. apply andb_prop in Hok as [?%Z.leb_le ?%Z.leb_le]. lia.
    + destruct (handleResponse_failure_throws response Hok) as [e He]. congruence.
Qed.

Lemma request_resolves_exactly_on_2xx_witness :
  Client.bodyUsed ClientExamples.imported_two = false
  ∧ Client.bodyUsed ClientExamples.bad_gateway = false
  ∧ (∃ v, Client.handleResponse ClientExamples.imported_two = Js.Return v)
  ∧ ¬ (∃ v, Client.handleResponse ClientExamples.bad_gateway = Js.Return v).
Proof.
  split; [reflexivity|]. split; [reflexivity|]. split.
  - apply (request_resolves_exactly_on_2xx ClientExamples.imported_two eq_refl).
    cbn. lia.
  - intros Hv.
    apply (request_resolves_exactly_on_2xx ClientExamples.bad_gateway eq_refl) in Hv.
    cbn in Hv. lia.
Defined.

(** X13: When a failed response carries a JSON object whose [detail] is a
    string that is not empty, the [ApiError] has the status of the
    response and that string, unchanged, as its message. *)
Theorem string_detail_is_the_message (response : Client.Response) (b : Client.Body)
    (properties : list (string * Js.Value)) (detail : string) :
  Client.ok response = false →
  Client.bodyUsed response = false →
  Client.body response = Some b →
  Client.json b = Some (Js.Object properties) →
  Js.own_property properties "detail" = Some (Js.Str detail) →
  detail ≠ EmptyString →
  Client.handleResponse response = Js.Throw (Js.ApiError (Client.status response) detail).
Proof.
  intros Hok Hused Hbody Hjson Hdetail Hne.
  eapply handleResponse_json_detail; [done..|].
  cbn. rewrite Hdetail. cbn. unfold Utils.normalizeErrorDetail. cbn.
  destruct (String.eqb_spec detail EmptyString); [done|]. by cbn.
Qed.

Lemma string_detail_is_the_message_witness :
  Client.ok MoreClientExamples.not_found = false
  ∧ "Merge target not found"%string ≠ EmptyString
  ∧ Client.handleResponse MoreClientExamples.not_found
    = Js.Throw (Js.ApiError 404 "Merge target not found").
Proof.
  split; [reflexivity|]. split; [discriminate|].
  refine (string_detail_is_the_message MoreClientExamples.not_found _
            [("detail"%string, Js.Str "Merge target not found")] _
            eq_refl eq_refl eq_refl eq_refl eq_refl _).
  discriminate.
Defined.



(** ** parseEmailList *)

Section TextFacts.
Import Text Emails.

Lemma trimStart_starts_clean s : starts_clean (trimStart s).
Proof.
  induction s as [|c s IH]; [done|]. cbn.
  destruct (is_whitespace c) eqn:Hc; [done|]. by cbn.
Qed.

Lemma trimStart_id s : starts_clean s → trimStart s = s.
Proof. destruct s as [|c s]; [done|]. cbn. by intros ->. Qed.

Lemma trimEnd_starts_clean s : starts_clean s → starts_clean (trimEnd s).
Proof.
  destruct s as [|c s]; [done|]. cbn. intros Hc.
  destruct (trimEnd s); by rewrite ?Hc.
Qed.

Lemma trimEnd_cons c s :
  trimEnd (String c s)
  = match trimEnd s with
    | EmptyString => if is_whitespace c then EmptyString else String c EmptyString
    | kept => String c kept
    end.
Proof. done. Qed.

Lemma trimEnd_idem s : trimEnd (trimEnd s) = trimEnd s.
Proof.
  induction s as [|c s IH]; [done|]. rewrite trimEnd_cons.
  destruct (trimEnd s) as [|c' kept] eqn:Hs.
  - destruct (is_whitespace c) eqn:Hc; [done|]. rewrite trimEnd_cons. cbn. by rewrite Hc.
  - rewrite trimEnd_cons, IH. done.
Qed.

Lemma trim_idem s : trim (trim s) = trim s.
Proof.
  unfold trim. rewrite (trimStart_id (trimEnd (trimStart s))).
  - apply trimEnd_idem.
  - apply trimEnd_starts_clean, trimStart_starts_clean.
Qed.

Lemma occurs_trimStart c s : occurs c s = false → occurs c (trimStart s) = false.
Proof.
  induction s as [|c' s IH]; [done|].
  change (occurs c (String c' s)) with (Ascii.eqb c' c || occurs c s).
  intros [Hc Hs]%orb_false_elim.
  change (trimStart (String c' s))
    with (if is_whitespace c' then trimStart s else String c' s).
  destruct (is_whitespace c'); [by apply IH|].
  change (occurs c (String c' s)) with (Ascii.eqb c' c || occurs c s). by rewrite Hc, Hs.
Qed.

Lemma occurs_trimEnd c s : occurs c s = false → occurs c (trimEnd s) = false.
Proof.
  induction s as [|c' s IH]; [done|].
  change (occurs c (String c' s)) with (Ascii.eqb c' c || occurs c s).
  intros [Hc Hs]%orb_false_elim. specialize (IH Hs). rewrite trimEnd_cons.
  destruct (trimEnd s) as [|c'' kept].
  - destruct (is_whitespace c'); [done|].
    change (occurs c (String c' EmptyString)) with (Ascii.eqb c' c || false).
    by rewrite Hc.
  - change (occurs c (String c' (String c'' kept)))
      with (Ascii.eqb c' c || occurs c (String c'' kept)).
    by rewrite Hc, IH.
Qed.

Lemma occurs_trim c s : occurs c s = false → occurs c (trim s) = false.
Proof. intros Hs. by apply occurs_trimEnd, occurs_trimStart. Qed.

Lemma split_cons sep c rest :
  split sep (String c rest)
  = if Ascii.eqb c sep then EmptyString :: split sep rest
    else match split sep rest with
         | [] => [String c EmptyString]
         | piece :: pieces => String c piece :: pieces
         end.
Proof. done. Qed.

Lemma occurs_cons c c' rest : occurs c (String c' rest) = Ascii.eqb c' c || occurs c rest.
Proof. done. Qed.

Lemma split_pieces sep s : Forall (λ piece, occurs sep piece = false) (split sep s).
Proof.
  induction s as [|c s IH]; [by repeat constructor|]. rewrite split_cons.
  destruct (Ascii.eqb c sep) eqn:Hc; [by constructor|].
  destruct (split sep s) as [|piece pieces].
  - repeat constructor. by rewrite occurs_cons, Hc.
  - apply Forall_cons in IH as [Hpiece Hpieces]. constructor; [|done].
    by rewrite occurs_cons, Hc.
Qed.

Lemma split_no_separator sep s : occurs sep s = false → split sep s = [s].
Proof.
  induction s as [|c s IH]; [done|]. rewrite occurs_cons, split_cons.
  intros [Hc Hs]%orb_false_elim. by rewrite Hc, (IH Hs).
Qed.

Lemma split_append sep s rest :
  occurs sep s = false →
  split sep (s +:+ String sep rest) = s :: split sep rest.
Proof.
  induction s as [|c s IH].
  - intros _. change (EmptyString +:+ String sep rest) with (String sep rest).
    by rewrite split_cons, Ascii.eqb_refl.
  - rewrite occurs_cons. intros [Hc Hs]%orb_false_elim.
    change (String c s +:+ String sep rest) with (String c (s +:+ String sep rest)).
    by rewrite split_cons, Hc, (IH Hs).
Qed.

Lemma split_concat sep values :
  values ≠ [] →
  Forall (λ value, occurs sep value = false) values →
  split sep (String.concat (String sep EmptyString) values) = values.
Proof.
  induction values as [|value values IH]; [done|]. intros _ Hvalues.
  apply Forall_cons in Hvalues as [Hvalue Hvalues].
  destruct values as [|next values].
  - cbn. by apply split_no_separator.
  - change (String.concat (String sep EmptyString) (value :: next :: values))
      with (value +:+ String sep (String.concat (String sep EmptyString) (next :: values))).
    rewrite split_append by done. f_equal. by apply IH.
Qed.

Lemma parseEmailList_clean input : Forall clean (parseEmailList input).
Proof.
  unfold parseEmailList. apply Forall_forall. intros value.
  rewrite list_elem_of_filter, list_elem_of_fmap. intros (Hne & piece & -> & Hpiece).
  split; [done|]. split; [|apply trim_idem].
  apply occurs_trim. pose proof (split_pieces comma input) as Hpieces.
  rewrite Forall_forall in Hpieces. by apply Hpieces.
Qed.

Lemma trimmed_clean values :
  Forall clean values →
  filter (λ value, value ≠ EmptyString) (trim <$> values) = values.
Proof.
  induction 1 as [|value values (Hvalue & _ & Htrim) _ IH]; [done|].
  rewrite fmap_cons, Htrim, filter_cons_True by done. by rewrite IH.
Qed.

Lemma parseEmailList_of_clean values :
  Forall clean values → parseEmailList (String.concat "," values) = values.
Proof.
  intros Hvalues. unfold parseEmailList.
  destruct (decide (values = [])) as [->|Hne]; [done|].
  change ","%string with (String comma EmptyString).
  rewrite split_concat; [by apply trimmed_clean|done|].
  eapply Forall_impl; [exact Hvalues|]. by intros ? (? & ? & ?).
Qed.

End TextFacts.

(** X15: No entry of a parsed e-mail list is empty, holds a comma, or begins
    or ends with white space. *)
Theorem parsed_emails_are_clean (input : string) :
  Forall Emails.clean (Emails.parseEmailList input).
Proof. apply parseEmailList_clean. Qed.

(** X16: Joining entries that are not empty, hold no comma and have no white
    space at their ends with commas and parsing the text gives the
    entries back; so a parsed list, joined and parsed again, is the
    same list. *)
Theorem parsed_emails_round_trip (input : string) (values : list string) :
  (Forall Emails.clean values →
   Emails.parseEmailList (String.concat "," values) = values)
  ∧ Emails.parseEmailList (String.concat "," (Emails.parseEmailList input))
    = Emails.parseEmailList input.
Proof.
  split; [apply parseEmailList_of_clean|].
  apply parseEmailList_of_clean, parseEmailList_clean.
Qed.

Lemma parsed_emails_round_trip_witness :
  Forall Emails.clean ["ana@example.com"; "li@example.com"]%string
  ∧ Emails.parseEmailList " ana@example.com ,, li@example.com , "
    = ["ana@example.com"; "li@example.com"]%string
  ∧ Emails.parseEmailList (String.concat "," ["ana@example.com"; "li@example.com"]%string)
    = ["ana@example.com"; "li@example.com"]%string.
Proof.
  assert (Hclean : Forall Emails.clean ["ana@example.com"; "li@example.com"]%string).
  { repeat constructor; discriminate. }
  split; [exact Hclean|]. split; [reflexivity|].
  exact (proj1 (parsed_emails_round_trip EmptyString _) Hclean).
Defined.

(** ** The search box *)

Section SearchFacts.
Import Text InventorySearch.

Lemma append_cons c a b : String c a +:+ b = String c (a +:+ b).
Proof. done. Qed.

Lemma append_assoc a b c : (a +:+ b) +:+ c = a +:+ (b +:+ c).
Proof. induction a as [|x a IH]; [done|]. by rewrite !append_cons, IH. Qed.

Lemma startsWith_spec s wanted :
  startsWith s wanted = true ↔ ∃ rest, s = wanted +:+ rest.
Proof.
  revert s. induction wanted as [|c' wanted IH]; intros s.
  - split; [intros _; by exists s|by destruct s].
  - destruct s as [|c s].
    + split; [done|]. by intros [rest Hrest].
    + change (startsWith (String c s) (String c' wanted))
        with (Ascii.eqb c c' && startsWith s wanted).
      rewrite andb_true_iff, Ascii.eqb_eq, IH. split.
      * intros [-> [rest ->]]. by exists rest.
      * intros [rest Hrest]. rewrite append_cons in Hrest. injection Hrest as -> ->. eauto.
Qed.

Lemma includes_spec s wanted :
  includes s wanted = true ↔ ∃ before after, s = before +:+ wanted +:+ after.
Proof.
  induction s as [|c s IH].
  - change (includes EmptyString wanted) with (startsWith EmptyString wanted || false).
    rewrite orb_false_r, startsWith_spec. split.
    + intros [rest Hrest]. by exists EmptyString, rest.
    + intros (before & after & Hs). destruct before; [by exists after|done].
  - change (includes (String c s) wanted)
      with (startsWith (String c s) wanted || includes s wanted).
    rewrite orb_true_iff, startsWith_spec, IH. split.
    + intros [[rest Hrest]|(before & after & ->)].
      * by exists EmptyString, rest.
      * by exists (String c before), after.
    + intros (before & after & Hs). destruct before as [|c' before].
      * left. by exists after.
      * right. rewrite append_cons in Hs. injection Hs as -> ->. by exists before, after.
Qed.

(** A text that holds [longer] holds every part of [longer]. *)
Lemma includes_trans s longer shorter :
  includes s longer = true → includes longer shorter = true → includes s shorter = true.
Proof.
  rewrite !includes_spec. intros (b1 & a1 & ->) (b2 & a2 & ->).
  exists (b1 +:+ b2), (a2 +:+ a1). by rewrite !append_assoc.
Qed.

Lemma matches_narrows item longer shorter :
  includes longer shorter = true → matches longer item = true → matches shorter item = true.
Proof.
  intros Hterms. unfold matches. rewrite !orb_true_iff.
  intros [[[[H|H]|H]|H]|H];
    [left; left; left; left|left; left; left; right|left; left; right|left; right|right];
    by eapply includes_trans.
Qed.

Lemma toLowerCase_empty s : toLowerCase s = EmptyString ↔ s = EmptyString.
Proof. by destruct s. Qed.

End SearchFacts.

(** X17: A search text that is blank shows every item. Any search shows items
    of the table, in the order of the table. And a search whose term
    holds the term of another search, as when the user types on, shows
    a part of what the other shows: typing more never brings an item
    back. *)
Theorem search_narrows (items : list InventorySearch.TableItem) (search longerSearch : string) :
  (Text.trim search = EmptyString → InventorySearch.filteredItems items search = items)
  ∧ InventorySearch.filteredItems items search `sublist_of` items
  ∧ (InventorySearch.includes (InventorySearch.searchTerm longerSearch)
       (InventorySearch.searchTerm search) = true →
     InventorySearch.searchTerm longerSearch ≠ EmptyString →
     InventorySearch.filteredItems items longerSearch
     `sublist_of` InventorySearch.filteredItems items search).
Proof.
  split; [|split].
  - intros Hblank. unfold InventorySearch.filteredItems, InventorySearch.searchTerm.
    by rewrite Hblank.
  - unfold InventorySearch.filteredItems.
    destruct (String.eqb _ _); [done|apply sublist_filter].
  - intros Hterms Hlonger. unfold InventorySearch.filteredItems.
    destruct (String.eqb_spec (InventorySearch.searchTerm longerSearch) EmptyString); [done|].
    destruct (String.eqb (InventorySearch.searchTerm search) EmptyString);
      [apply sublist_filter|].
    rewrite <-(list_filter_filter_l
                 (λ item, InventorySearch.matches (InventorySearch.searchTerm longerSearch)
                            item = true)
                 (λ item, InventorySearch.matches (InventorySearch.searchTerm search)
                            item = true)).
    + apply sublist_filter.
    + intros item. by apply matches_narrows.
Qed.

Lemma search_narrows_witness :
  let towels := {| InventorySearch.fields := Examples.paper_towels;
                   InventorySearch.vendor := Some "Acme Supply"%string |} in
  let printer := {| InventorySearch.fields := Examples.old_printer;
                    InventorySearch.vendor := None |} in
  Text.trim "   " = EmptyString
  ∧ InventorySearch.filteredItems [towels; printer] "   " = [towels; printer]
  ∧ InventorySearch.filteredItems [towels; printer] " P" = [towels; printer]
  ∧ InventorySearch.filteredItems [towels; printer] "PRI " = [printer]
  ∧ InventorySearch.filteredItems [towels; printer] "PRI " `sublist_of`
      InventorySearch.filteredItems [towels; printer] " P".
Proof.
  intros towels printer.
  pose proof (search_narrows [towels; printer] " P" "PRI ") as (_ & _ & Hnarrows).
  split; [reflexivity|].
  split; [exact (proj1 (search_narrows [towels; printer] "   " EmptyString) eq_refl)|].
  split; [reflexivity|]. split; [reflexivity|].
  apply Hnarrows; [reflexivity|discriminate].
Defined.

(** ** The session *)

Section AuthFacts.
Import Auth.

Lemma is_member_spec me workspaceId :
  is_member me workspaceId = true
  ↔ ∃ ws, ws ∈ workspaces me ∧ Some (workspace_id ws) = workspaceId.
Proof.
  unfold is_member. rewrite existsb_exists. split.
  - intros (ws & Hin & Hws). exists ws. split; [by apply list_elem_of_In|].
    by apply bool_decide_eq_true in Hws.
  - intros (ws & Hin & Hws). exists ws. split; [by apply list_elem_of_In|].
    by apply bool_decide_eq_true.
Qed.

Lemma setWorkspaceId_twice n window :
  Storage.setWorkspaceId n (Storage.setWorkspaceId n window) = Storage.setWorkspaceId n window.
Proof. destruct window as [localStorage|]; [|done]. cbn. by rewrite insert_insert_eq. Qed.

End AuthFacts.

(** X18: Once the profile has loaded with at least one membership, the effect
    leaves a workspace selected that the user belongs to: the one that
    was selected when it is a non-zero id among the memberships, the
    first membership otherwise, which it also writes to the storage.
    Running the effect again changes nothing, and unless the selected id
    is 0 the role of the context is the role of a membership in it. *)
Theorem workspace_selection_settles (me : Auth.MeResponse) (st : Auth.State) :
  Auth.workspaces me ≠ [] →
  let st' := Auth.selectWorkspace (Some me) st in
  (∃ ws, ws ∈ Auth.workspaces me ∧ Auth.workspaceId st' = Some (Auth.workspace_id ws)
         ∧ (Auth.truthy (Auth.workspaceId st') = true →
            ∃ ws', ws' ∈ Auth.workspaces me
                   ∧ Auth.workspace_id ws' = Auth.workspace_id ws
                   ∧ Auth.currentRole (Some me) st' = Some (Auth.role ws')))
  ∧ ((∃ ws, ws ∈ Auth.workspaces me
            ∧ Auth.workspaceId st = Some (Auth.workspace_id ws)
            ∧ Auth.workspace_id ws ≠ 0) →
     st' = st)
  ∧ (¬ (∃ ws, ws ∈ Auth.workspaces me
              ∧ Auth.workspaceId st = Some (Auth.workspace_id ws)
              ∧ Auth.workspace_id ws ≠ 0) →
     ∃ first rest,
       Auth.workspaces me = first :: rest
       ∧ Auth.workspaceId st' = Some (Auth.workspace_id first)
       ∧ Auth.window st'
         = Storage.setWorkspaceId (Auth.workspace_id first) (Auth.window st)
       ∧ Auth.queriesCleared st' = Auth.queriesCleared st)
  ∧ Auth.selectWorkspace (Some me) st' = st'
  ∧ Auth.token st' = Auth.token st.
Proof.
  intros Hne st'.
  assert (∃ first rest, Auth.workspaces me = first :: rest) as (first & rest & Hws).
  { destruct (Auth.workspaces me) as [|first rest]; [done|by eexists _, _]. }
  assert (Hselected : ∃ ws, ws ∈ Auth.workspaces me
                            ∧ Auth.workspaceId st' = Some (Auth.workspace_id ws)).
  { unfold st', Auth.selectWorkspace. rewrite Hws.
    destruct (Auth.truthy (Auth.workspaceId st)) eqn:Htruthy; cbn [andb].
    - destruct (Auth.is_member me (Auth.workspaceId st)) eqn:Hmember.
      + apply is_member_spec in Hmember as (ws & Hin & Hid). rewrite Hws in Hin.
        by exists ws.
      + exists first. split; [rewrite ?Hws; apply list_elem_of_here|done].
    - exists first. split; [rewrite ?Hws; apply list_elem_of_here|done]. }
  assert (Hkept : Auth.truthy (Auth.workspaceId st) && Auth.is_member me (Auth.workspaceId st)
                  = true
                  ↔ ∃ ws, ws ∈ Auth.workspaces me
                          ∧ Auth.workspaceId st = Some (Auth.workspace_id ws)
                          ∧ Auth.workspace_id ws ≠ 0).
  { rewrite andb_true_iff, is_member_spec. split.
    - intros [Htruthy (ws & Hin & Hid)]. exists ws. split; [done|]. split; [done|].
      rewrite <-Hid in Htruthy. cbn in Htruthy. intros Hzero. by rewrite Hzero in Htruthy.
    - intros (ws & Hin & Hid & Hnonzero). split; [|by exists ws].
      rewrite Hid. cbn. apply negb_true_iff. by apply Z.eqb_neq. }
  split; [|split; [|split; [|split]]].
  - destruct Hselected as (ws & Hin & Hid). exists ws. split; [done|]. split; [done|].
    intros Htruthy. unfold Auth.currentRole. rewrite Htruthy. cbn [negb].
    destruct (list_find (λ ws0, Some (Auth.workspace_id ws0) = Auth.workspaceId st')
                (Auth.workspaces me)) as [[i found]|] eqn:Hfind.
    + apply list_find_Some in Hfind as (Hfound & Hfound_id & _).
      exists found. split; [by eapply list_elem_of_lookup_2|]. split; [|done].
      rewrite Hid in Hfound_id. by injection Hfound_id.
    + apply list_find_None in Hfind. rewrite Forall_forall in Hfind.
      by destruct (Hfind ws Hin).
  - intros Hmember%Hkept. unfold st', Auth.selectWorkspace. by rewrite Hws, Hmember.
  - intros Hnone. unfold st', Auth.selectWorkspace. rewrite Hws.
    destruct (Auth.truthy (Auth.workspaceId st) && Auth.is_member me (Auth.workspaceId st))
      eqn:Hmember; [destruct Hnone; by apply Hkept|].
    by exists first, rest.
  - unfold st', Auth.selectWorkspace. rewrite !Hws.
    destruct (Auth.truthy (Auth.workspaceId st) && Auth.is_member me (Auth.workspaceId st))
      eqn:Hkeep; [by rewrite Hkeep|].
    cbn [Auth.workspaceId Auth.window Auth.token Auth.queriesCleared].
    destruct (Auth.truthy (Some (Auth.workspace_id first))
              && Auth.is_member me (Some (Auth.workspace_id first))); [done|].
    by rewrite setWorkspaceId_twice.
  - unfold st', Auth.selectWorkspace. rewrite Hws.
    by destruct (Auth.truthy (Auth.workspaceId st) && Auth.is_member me (Auth.workspaceId st)).
Qed.

Lemma workspace_selection_settles_witness :
  let me := {| Auth.id := 3; Auth.email := "ana@example.com"; Auth.name := "Ana";
               Auth.workspaces :=
                 [ {| Auth.workspace_id := 4; Auth.workspace_name := "Kitchen";
                      Auth.role := Auth.member |};
                   {| Auth.workspace_id := 9; Auth.workspace_name := "Office";
                      Auth.role := Auth.admin |} ] |} in
  let on_office := {| Auth.token := Some "t0k3n"%string; Auth.workspaceId := Some 9;
                      Auth.window := Some ∅; Auth.queriesCleared := false |} in
  let on_unknown := {| Auth.token := Some "t0k3n"%string; Auth.workspaceId := Some 5;
                       Auth.window := Some ∅; Auth.queriesCleared := false |} in
  Auth.workspaces me ≠ []
  ∧ Auth.selectWorkspace (Some me) on_office = on_office
  ∧ Auth.currentRole (Some me) (Auth.selectWorkspace (Some me) on_office) = Some Auth.admin
  ∧ Auth.workspaceId (Auth.selectWorkspace (Some me) on_unknown) = Some 4
  ∧ Auth.currentRole (Some me) (Auth.selectWorkspace (Some me) on_unknown) = Some Auth.member
  ∧ Auth.selectWorkspace (Some me) (Auth.selectWorkspace (Some me) on_unknown)
    = Auth.selectWorkspace (Some me) on_unknown.
Proof.
  intros me on_office on_unknown. assert (Hne : Auth.workspaces me ≠ []) by discriminate.
  split; [exact Hne|]. split.
  { apply (proj1 (proj2 (workspace_selection_settles me on_office Hne))).
    eexists. split; [apply list_elem_of_further, list_elem_of_here|]. split; [reflexivity|done]. }
  split; [reflexivity|]. split; [reflexivity|]. split; [reflexivity|].
  exact (proj1 (proj2 (proj2 (proj2 (workspace_selection_settles me on_unknown Hne))))).
Defined.

(** X19: After [logout] nothing of the session is left: no token and no
    workspace in the state, neither key in the storage, no role; every
    other key of the storage is as it was. A token set before is gone
    too. *)
Theorem logout_forgets_the_session (data : option Auth.MeResponse) (st : Auth.State)
    (nextToken : string) :
  let st' := Auth.logout (Auth.setAuthToken nextToken st) in
  Auth.token st' = None
  ∧ Auth.workspaceId st' = None
  ∧ Storage.getToken (Auth.window st') = None
  ∧ Auth.currentRole data st' = None
  ∧ Auth.queriesCleared st' = true
  ∧ (∀ localStorage, Auth.window st = Some localStorage →
       ∃ localStorage',
         Auth.window st' = Some localStorage'
         ∧ localStorage' !! Storage.WORKSPACE_KEY = None
         ∧ ∀ key, key ≠ Storage.TOKEN_KEY → key ≠ Storage.WORKSPACE_KEY →
                  localStorage' !! key = localStorage !! key)
  ∧ (Auth.window st = None → Auth.window st' = None)
  ∧ (∀ localStorage, Auth.window st = Some localStorage →
       Storage.getToken (Auth.window (Auth.setAuthToken nextToken st)) = Some nextToken).
Proof.
  intros st'. repeat split.
  - cbn. destruct (Auth.window st) as [localStorage|]; [|done].
    cbn. unfold Storage.WORKSPACE_KEY, Storage.TOKEN_KEY.
    rewrite lookup_delete_ne by done. apply lookup_delete_eq.
  - by destruct data.
  - intros localStorage Hwindow. cbn. rewrite Hwindow. cbn. eexists. split; [done|].
    split; [apply lookup_delete_eq|].
    intros key Htoken Hworkspace.
    by rewrite lookup_delete_ne, lookup_delete_ne, lookup_insert_ne.
  - intros Hwindow. cbn. by rewrite Hwindow.
  - intros localStorage Hwindow. cbn. rewrite Hwindow. cbn. apply lookup_insert_eq.
Qed.

Lemma logout_forgets_the_session_witness :
  let st := {| Auth.token := None; Auth.workspaceId := Some 4;
               Auth.window := Some (<["theme"%string := "dark"%string]> ∅);
               Auth.queriesCleared := false |} in
  Auth.window st = Some (<["theme"%string := "dark"%string]> ∅)
  ∧ Storage.getToken (Auth.window (Auth.setAuthToken "t0k3n" st)) = Some "t0k3n"%string
  ∧ Storage.getToken (Auth.window (Auth.logout (Auth.setAuthToken "t0k3n" st))) = None
  ∧ ∃ localStorage',
      Auth.window (Auth.logout (Auth.setAuthToken "t0k3n" st)) = Some localStorage'
      ∧ localStorage' !! "theme"%string = Some "dark"%string.
Proof.
  intros st.
  pose proof (logout_forgets_the_session None st "t0k3n")
    as (_ & _ & Hgone & _ & _ & Hframe & _ & Hset).
  split; [reflexivity|]. split; [exact (Hset _ eq_refl)|]. split; [exact Hgone|].
  destruct (Hframe _ eq_refl) as (localStorage' & Hwindow & _ & Hkeys).
  exists localStorage'. split; [exact Hwindow|].
  rewrite Hkeys by discriminate. reflexivity.
Defined.

(** ** More on failures *)

(** X20: [normalizeErrorDetail] returns a string exactly on the inputs in
    which every segment of every [loc] array converts to a string; on
    every other input it throws. *)
Theorem normalizeErrorDetail_returns_exactly (detail : Js.Value) :
  (∃ message, Utils.normalizeErrorDetail detail = Js.Return message)
  ↔ Utils.locs_stringable detail = true.
Proof.
  split; [|apply normalizeErrorDetail_returns].
  intros [message Hmessage]. destruct (Utils.locs_stringable detail) eqn:Hlocs; [done|].
  destruct (normalizeErrorDetail_throws detail Hlocs) as [e He]. congruence.
Qed.

(** X21: A failed response whose body is not JSON makes [apiRequest] throw
    the [TypeError] of a second read of the body, whatever the status and
    the text; a failed response without a body gives an [ApiError] with
    the status and the message "Request failed". *)
Theorem failed_response_without_json (response : Client.Response) :
  Client.ok response = false →
  Client.bodyUsed response = false →
  match Client.body response with
  | Some b =>
      Client.json b = None →
      Client.handleResponse response = Js.Throw (Js.TypeError "body stream already read")
  | None =>
      Client.handleResponse response
      = Js.Throw (Js.ApiError (Client.status response) "Request failed")
  end.
Proof.
  intros Hok Hused. destruct (Client.body response) as [b|] eqn:Hbody.
  - intros Hjson. by eapply handleResponse_text_body.
  - by apply handleResponse_no_body.
Qed.

Lemma failed_response_without_json_witness :
  let empty_500 := {| Client.status := 500; Client.body := None; Client.bodyUsed := false |} in
  Client.ok ClientExamples.bad_gateway = false
  ∧ Client.handleResponse ClientExamples.bad_gateway
    = Js.Throw (Js.TypeError "body stream already read")
  ∧ Client.ok empty_500 = false
  ∧ Client.handleResponse empty_500 = Js.Throw (Js.ApiError 500 "Request failed").
Proof.
  intros empty_500. split; [reflexivity|]. split.
  - exact (failed_response_without_json ClientExamples.bad_gateway eq_refl eq_refl eq_refl).
  - split; [reflexivity|].
    exact (failed_response_without_json empty_500 eq_refl eq_refl).
Defined.

Lemma normalizeErrorDetail_returns_exactly_witness :
  Utils.locs_stringable (Js.Array [Js.Str "quota exceeded"; Js.Number (Js.Int 3)]) = true
  ∧ (∃ message,
       Utils.normalizeErrorDetail (Js.Array [Js.Str "quota exceeded"; Js.Number (Js.Int 3)])
       = Js.Return message)
  ∧ ¬ (∃ message,
         Utils.normalizeErrorDetail
           (Js.Array [Js.Object [("loc", Js.Array [Js.Object [("toString", Js.Null)]])]])
         = Js.Return message).
Proof.
  split; [reflexivity|]. split.
  - apply (proj2 (normalizeErrorDetail_returns_exactly
                    (Js.Array [Js.Str "quota exceeded"; Js.Number (Js.Int 3)]))).
    reflexivity.
  - intros Hreturns.
    apply (proj1 (normalizeErrorDetail_returns_exactly _)) in Hreturns. discriminate.
Defined.
